(** * autoupgrade: the install-target builder, the upgrade orchestrator and
    the lazily cached build information of an [UpgradeResult].

    The development embeds [autoupgrade.go] shallowly.  Go strings are byte
    sequences ([string], and [list ascii] inside the path cleaner); a nil
    pointer or a nil [error] is [None]; the external collaborators
    ([debug.ReadBuildInfo], [exec.Cmd.Run], [os.Executable],
    [buildinfo.ReadFile]) are oracles of an environment, and every call to
    one of them is recorded in a history so that "never invoked" and "at most
    once" are statements about that history. *)

From Stdlib Require Import String Ascii List Bool Arith Lia.
Import ListNotations.

Open Scope string_scope.
Open Scope list_scope.
Open Scope nat_scope.

(** ** Package [path] of the Go standard library

    [fullPath] calls [path.Join].  [Join] and [Clean] are transcribed from
    the Go standard library ([path/path.go]): [Clean] scans the input with a
    read index [r] and writes to a buffer with a write index [w]; here the
    unread part [path[r:]] is the list [rest] and the written part
    [buf[:w]] is the list [out], so that [out.w] is [length out]. *)

Module path.

Definition slash : ascii := "/"%char.
Definition dot : ascii := "."%char.

Definition is_slash (c : ascii) : bool := Ascii.eqb c slash.
Definition is_dot (c : ascii) : bool := Ascii.eqb c dot.

(** [r+1 == n || path[r+1] == '/'], read on the part that follows. *)
Definition at_end_or_slash (l : list ascii) : bool :=
  match l with
  | [] => true
  | c :: _ => is_slash c
  end.

(** The copy loop [for ; r < n && path[r] != '/'; r++ { out.append(path[r]) }]:
    the bytes copied and the part left unread. *)
Fixpoint copy_elem (rest : list ascii) : list ascii * list ascii :=
  match rest with
  | [] => ([], [])
  | c :: rest' =>
      if is_slash c then ([], rest)
      else let (e, r) := copy_elem rest' in (c :: e, r)
  end.

(** [for out.w > dotdot && out.index(out.w) != '/' { out.w-- }], on the
    reversed buffer: [rout] holds [buf[:out.w+1]] back to front, so its head
    is [out.index(out.w)]. *)
Fixpoint backtrack_rev (rout : list ascii) (dotdot : nat) : list ascii :=
  match rout with
  | [] => []
  | c :: rout' =>
      if (dotdot <? length rout') && negb (is_slash c)
      then backtrack_rev rout' dotdot
      else rout'
  end.

(** [out.w--] followed by the loop above: the buffer after a [..] element
    has removed the last element written. *)
Definition backtrack (out : list ascii) (dotdot : nat) : list ascii :=
  rev (backtrack_rev (rev out) dotdot).

(** The main loop [for r < n { switch ... }] of [Clean].  Every iteration
    reads at least one byte, so [fuel = length rest] iterations suffice
    ([clean_loop_fuel] below). *)
Fixpoint clean_loop (fuel : nat) (rooted : bool) (rest out : list ascii)
    (dotdot : nat) : list ascii :=
  match fuel with
  | O => out
  | S fuel' =>
      match rest with
      | [] => out
      | c :: rest1 =>
          if is_slash c then
            (* empty path element *)
            clean_loop fuel' rooted rest1 out dotdot
          else if is_dot c && at_end_or_slash rest1 then
            (* . element *)
            clean_loop fuel' rooted rest1 out dotdot
          else if is_dot c
                  && match rest1 with
                     | c1 :: rest2 => is_dot c1 && at_end_or_slash rest2
                     | [] => false
                     end then
            (* .. element: remove to last / *)
            let rest2 := tl rest1 in
            if dotdot <? length out then
              (* can backtrack *)
              clean_loop fuel' rooted rest2 (backtrack out dotdot) dotdot
            else if negb rooted then
              (* cannot backtrack, but not rooted, so append .. element *)
              let out1 := if 0 <? length out then out ++ [slash] else out in
              let out2 := out1 ++ [dot; dot] in
              clean_loop fuel' rooted rest2 out2 (length out2)
            else
              clean_loop fuel' rooted rest2 out dotdot
          else
            (* real path element: add slash if needed, copy element *)
            let out1 :=
              if (rooted && negb (length out =? 1))
                 || (negb rooted && negb (length out =? 0))
              then out ++ [slash] else out in
            let (e, rest') := copy_elem rest in
            clean_loop fuel' rooted rest' (out1 ++ e) dotdot
      end
  end.

(** *** [Clean] on the stack of path elements

    The buffer of [Clean] always holds a rendered stack of path elements:
    [k] leading [..] elements that cannot be removed (none when the path is
    rooted), then the elements [reals] copied from the input, separated by
    slashes, after the leading slash of a rooted path.  [stack_loop] is the
    loop of [Clean] on that stack; [clean_loop_render] relates the two. *)

(** The elements of [es] separated by slashes. *)
Fixpoint join_elems (es : list (list ascii)) : list ascii :=
  match es with
  | [] => []
  | [e] => e
  | e :: es' => e ++ slash :: join_elems es'
  end.

Definition render (rooted : bool) (k : nat) (reals : list (list ascii))
  : list ascii :=
  (if rooted then [slash] else []) ++ join_elems (repeat [dot; dot] k ++ reals).

(** A byte sequence without a slash. *)
Definition slash_free (e : list ascii) : bool := forallb (fun c => negb (is_slash c)) e.

(** A path element: not empty, without a slash. *)
Definition elem_ok (e : list ascii) : bool :=
  negb (length e =? 0) && slash_free e.

(** The elements [.] and [..], and the elements that [Clean] copies. *)
Definition is_dot_elem (e : list ascii) : bool :=
  match e with
  | [c] => is_dot c
  | [c1; c2] => is_dot c1 && is_dot c2
  | _ => false
  end.

Definition real_elem (e : list ascii) : bool :=
  elem_ok e && negb (is_dot_elem e).

Definition all_elems (es : list (list ascii)) : Prop :=
  Forall (fun e => elem_ok e = true) es.

Fixpoint stack_loop (fuel : nat) (rooted : bool) (rest : list ascii)
    (k : nat) (reals : list (list ascii)) : nat * list (list ascii) :=
  match fuel with
  | O => (k, reals)
  | S fuel' =>
      match rest with
      | [] => (k, reals)
      | c :: rest1 =>
          if is_slash c then stack_loop fuel' rooted rest1 k reals
          else if is_dot c && at_end_or_slash rest1 then
            stack_loop fuel' rooted rest1 k reals
          else if is_dot c
                  && match rest1 with
                     | c1 :: rest2 => is_dot c1 && at_end_or_slash rest2
                     | [] => false
                     end then
            let rest2 := tl rest1 in
            match reals with
            | _ :: _ => stack_loop fuel' rooted rest2 k (removelast reals)
            | [] =>
                if negb rooted then stack_loop fuel' rooted rest2 (S k) []
                else stack_loop fuel' rooted rest2 k []
            end
          else
            let (e, rest') := copy_elem rest in
            stack_loop fuel' rooted rest' k (reals ++ [e])
      end
  end.

(** No two slashes in a row. *)
Fixpoint no_double_slash (l : list ascii) : bool :=
  match l with
  | [] => true
  | c :: l' =>
      negb (is_slash c && match l' with c' :: _ => is_slash c' | [] => false end)
      && no_double_slash l'
  end.

(** The first and the last byte are slashes. *)
Definition leading_slash (l : list ascii) : bool :=
  match l with c :: _ => is_slash c | [] => false end.

Definition trailing_slash (l : list ascii) : bool :=
  leading_slash (rev l).

(** The part of the input before an element: empty, or ending in a slash. *)
Definition boundary (pre : list ascii) : Prop :=
  pre = [] \/ trailing_slash pre = true.

(** [path.Clean], on bytes. *)
Definition Clean_bytes (p : list ascii) : list ascii :=
  match p with
  | [] => [dot]
  | c :: p' =>
      let rooted := is_slash c in
      let out :=
        if rooted then clean_loop (length p') true p' [slash] 1
        else clean_loop (length p) false p [] 0 in
      match out with
      | [] => [dot]
      | _ => out
      end
  end.

Definition Clean (p : string) : string :=
  string_of_list_ascii (Clean_bytes (list_ascii_of_string p)).

(** The loop of [Join] that appends the non-empty elements to [buf],
    separated by slashes. *)
Fixpoint join_buf (buf : string) (elem : list string) : string :=
  match elem with
  | [] => buf
  | e :: elem' =>
      if negb (String.length buf =? 0) || negb (e =? "")%string then
        let buf1 :=
          if negb (String.length buf =? 0) then (buf ++ "/")%string else buf in
        join_buf (buf1 ++ e)%string elem'
      else join_buf buf elem'
  end.

(** [path.Join]. *)
Definition Join (elem : list string) : string :=
  let size := fold_left (fun n e => n + String.length e) elem 0 in
  if size =? 0 then "" else Clean (join_buf "" elem).

End path.

Definition at_sign : ascii := "@"%char.

(** The bytes of a Go string. *)
Definition bytes (s : string) : list ascii := list_ascii_of_string s.

(** The argument [path.Join] hands to [path.Clean] in [fullPath]. *)
Definition joined (modulePath packagePath version : string) : string :=
  if (modulePath =? "")%string then (packagePath ++ "@" ++ version)%string
  else (modulePath ++ "/" ++ packagePath ++ "@" ++ version)%string.

(** ** [fullPath] *)

(** [fullPath] constructs the argument of [go install]:
    [path.Join(modulePath, packagePath+"@"+version)]. *)
Definition fullPath (modulePath packagePath version : string) : string :=
  let ret := path.Join [modulePath; (packagePath ++ "@" ++ version)%string] in
  ret.

(** The builder as the specification words it (section 4.2): the module
    identifier and the sub-path are joined with [path.Join], then [@] and the
    version tag are appended to the final segment.  [fullPath] appends first
    and joins afterwards. *)
Definition build_spec (moduleId subPath versionTag : string) : string :=
  (path.Join [moduleId; subPath] ++ "@" ++ versionTag)%string.

(** ** Data model *)

(** A Go [error] value, identified by its message; the nil error is [None]. *)
Definition error := string.

(** [debug.Module] and [debug.BuildInfo], with the fields the package reads:
    [info.Main.Path] and [info.Main.Version]. *)
Record Module := { Path : string; Version : string }.
Record BuildInfo := { Main : Module }.

(** [context.Context] as the package observes it once the attempt has
    returned, when [UpgradeBackground] chooses a case of its [select]: [Err]
    is [ctx.Err()], nil until the context is cancelled or its deadline has
    passed, and the channel [ctx.Done()] is closed exactly when [Err] is
    non-nil.  What the context does to the running command is part of what
    [Run] answers. *)
Record Context := { Err : option error }.

Definition Done_closed (ctx : Context) : bool :=
  match Err ctx with Some _ => true | None => false end.

(** [UpgradeResult].  [once] is the [done] flag of the [sync.Once]. *)
Record UpgradeResult := {
  CurrentInfo : option BuildInfo;
  ExitError : option error;
  once : bool;
  newInfo : option BuildInfo;
  newInfoErr : option error
}.

(** The composite literal [&UpgradeResult{CurrentInfo: info, ExitError: err}]:
    the unexported fields take their zero values. *)
Definition mkUpgradeResult (info : option BuildInfo) (err : option error)
  : UpgradeResult :=
  {| CurrentInfo := info; ExitError := err;
     once := false; newInfo := None; newInfoErr := None |}.

(** The assignments to the unexported fields: [u.newInfoErr = err],
    [u.newInfo, u.newInfoErr = info, err], and the [o.done.Store(1)] of
    [sync.Once]. *)
Definition store_newInfoErr (u : UpgradeResult) (err : option error)
  : UpgradeResult :=
  {| CurrentInfo := CurrentInfo u; ExitError := ExitError u;
     once := once u; newInfo := newInfo u; newInfoErr := err |}.

Definition store_newInfo (u : UpgradeResult) (info : option BuildInfo)
    (err : option error) : UpgradeResult :=
  {| CurrentInfo := CurrentInfo u; ExitError := ExitError u;
     once := once u; newInfo := info; newInfoErr := err |}.

Definition store_done (u : UpgradeResult) : UpgradeResult :=
  {| CurrentInfo := CurrentInfo u; ExitError := ExitError u;
     once := true; newInfo := newInfo u; newInfoErr := newInfoErr u |}.

(** The result [u] with [ExitError] replaced: what a result with the same
    build information and another install error looks like. *)
Definition with_ExitError (u : UpgradeResult) (err : option error)
  : UpgradeResult :=
  {| CurrentInfo := CurrentInfo u; ExitError := err;
     once := once u; newInfo := newInfo u; newInfoErr := newInfoErr u |}.

(** ** The external collaborators

    [ReadBuildInfo] is [debug.ReadBuildInfo()] ([None] when [ok] is false).
    [Run ctx k args] is what [cmd.Run()] returns for the command line [args]
    under [ctx] when [k] commands have run before; [Executable k] and
    [ReadFile k name] are [os.Executable()] and [buildinfo.ReadFile(name)] at
    their [k]-th call, so that a later call may answer differently. *)
Record Env := {
  ReadBuildInfo : option BuildInfo;
  Run : Context -> nat -> list string -> option error;
  Executable : nat -> string * option error;
  ReadFile : nat -> string -> option BuildInfo * option error
}.

(** What has been asked of the collaborators so far: the command lines run,
    the number of calls of [os.Executable], the file names read. *)
Record Hist := {
  runs : list (list string);
  executables : nat;
  reads : list string
}.

Definition no_calls : Hist := {| runs := []; executables := 0; reads := [] |}.

Definition record_run (args : list string) (h : Hist) : Hist :=
  {| runs := runs h ++ [args]; executables := executables h; reads := reads h |}.

Definition record_executable (h : Hist) : Hist :=
  {| runs := runs h; executables := S (executables h); reads := reads h |}.

Definition record_read (name : string) (h : Hist) : Hist :=
  {| runs := runs h; executables := executables h; reads := reads h ++ [name] |}.

(** ** [Upgrade] *)

Definition devel : string := "(devel)".

Definition Upgrade (E : Env) (ctx : Context) (packagePath : string) (h : Hist)
  : UpgradeResult * Hist :=
  match ReadBuildInfo E with
  | None => (mkUpgradeResult None None, h)
  | Some info =>
      (* Don't upgrade if the current version is a development version *)
      if (Version (Main info) =? devel)%string then
        (mkUpgradeResult (Some info) None, h)
      else
        let modulePath := Path (Main info) in
        if (modulePath =? "")%string then
          (mkUpgradeResult (Some info) None, h)
        else
          let cmd := ["go"; "install"; fullPath modulePath packagePath "latest"] in
          let err := Run E ctx (length (runs h)) cmd in
          (mkUpgradeResult (Some info) err, record_run cmd h)
  end.

(** The command line [Upgrade] runs when the build information is [info]. *)
Definition install_cmd (packagePath : string) (info : BuildInfo) : list string :=
  ["go"; "install"; fullPath (Path (Main info)) packagePath "latest"].

(** ** [NewBuildInfo] and [DidUpgrade] *)

(** The function literal passed to [u.once.Do]. *)
Definition resolve (E : Env) (u : UpgradeResult) (h : Hist)
  : UpgradeResult * Hist :=
  let (execPath, err) := Executable E (executables h) in
  let h1 := record_executable h in
  match err with
  | Some e => (store_newInfoErr u (Some e), h1)
  | None =>
      let (info, err') := ReadFile E (length (reads h1)) execPath in
      (store_newInfo u info err', record_read execPath h1)
  end.

(** [sync.Once.Do] called from one execution unit: [f] runs if [done] is
    not set, and [done] is set when [f] has returned. *)
Definition once_Do (f : UpgradeResult -> Hist -> UpgradeResult * Hist)
    (u : UpgradeResult) (h : Hist) : UpgradeResult * Hist :=
  if once u then (u, h)
  else
    let (u1, h1) := f u h in
    (store_done u1, h1).

Definition NewBuildInfo (E : Env) (u : UpgradeResult) (h : Hist)
  : (option BuildInfo * option error) * UpgradeResult * Hist :=
  let (u1, h1) := once_Do (resolve E) u h in
  ((newInfo u1, newInfoErr u1), u1, h1).

Definition DidUpgrade (E : Env) (u : UpgradeResult) (h : Hist)
  : bool * UpgradeResult * Hist :=
  match CurrentInfo u with
  | None => (false, u, h)
  | Some cur =>
      if (Version (Main cur) =? devel)%string then (false, u, h)
      else
        let '(ni, _, u1, h1) := NewBuildInfo E u h in
        (match ni with
         | Some n => negb (Version (Main n) =? Version (Main cur))%string
         | None => false
         end, u1, h1)
  end.

(** ** [UpgradeBackground] *)

(** A Go channel of [*UpgradeResult]: the buffered values, the capacity,
    whether it has been closed. *)
Record Chan := {
  buf : list UpgradeResult;
  cap : nat;
  closed : bool
}.

Definition make_chan (n : nat) : Chan :=
  {| buf := []; cap := n; closed := false |}.

(** What a channel operation of the goroutine does: it proceeds, it blocks
    for ever (nobody else sends on or closes this channel, and no receiver is
    assumed), or it panics. *)
Inductive outcome (A : Type) : Type :=
| Proceeds (a : A)
| Blocks
| Panics.
Arguments Proceeds {A} a.
Arguments Blocks {A}.
Arguments Panics {A}.

(** A send can proceed when the buffer has room. *)
Definition can_send (ch : Chan) : bool := length (buf ch) <? cap ch.

(** [ch <- v] *)
Definition send (ch : Chan) (v : UpgradeResult) : outcome Chan :=
  if closed ch then Panics
  else if can_send ch then
    Proceeds {| buf := buf ch ++ [v]; cap := cap ch; closed := closed ch |}
  else Blocks.

(** [close(ch)] *)
Definition close (ch : Chan) : outcome Chan :=
  if closed ch then Panics
  else Proceeds {| buf := buf ch; cap := cap ch; closed := true |}.

(** [v, ok := <-ch], from the receiver: a buffered value, or the zero value
    with [ok] false once the channel is closed and drained. *)
Definition recv (ch : Chan) : outcome (option UpgradeResult * bool * Chan) :=
  match buf ch with
  | v :: rest =>
      Proceeds (Some v, true, {| buf := rest; cap := cap ch; closed := closed ch |})
  | [] => if closed ch then Proceeds (None, false, ch) else Blocks
  end.

(** The case a [select] statement takes. *)
Inductive select_case := CaseDone | CaseSend.

(** A send case of a [select] can proceed when the buffer has room (or
    when the channel is closed, and then it panics). *)
Definition send_ready (ch : Chan) : bool := closed ch || can_send ch.

(** The [select] of the goroutine.  Its operands are evaluated on entry, in
    source order, so [Upgrade] has returned before a case is chosen; then
    one of the cases that can proceed is taken, and [pick] is the choice of
    the runtime when both can. *)
Definition select (ctx : Context) (ch : Chan) (pick : select_case)
  : outcome select_case :=
  match Done_closed ctx, send_ready ch with
  | true, true => Proceeds pick
  | true, false => Proceeds CaseDone
  | false, true => Proceeds CaseSend
  | false, false => Blocks
  end.

(** The goroutine of [UpgradeBackground], run to its end on the channel
    [ch]: the [select], then the deferred [close(ch)]. *)
Definition background (E : Env) (ctx : Context) (packagePath : string)
    (pick : select_case) (ch : Chan) (h : Hist) : outcome Chan * Hist :=
  let (r, h1) := Upgrade E ctx packagePath h in
  let sent :=
    match select ctx ch pick with
    | Proceeds CaseDone => send ch (mkUpgradeResult None (Err ctx))
    | Proceeds CaseSend => send ch r
    | Blocks => Blocks
    | Panics => Panics
    end in
  (match sent with
   | Proceeds ch1 => close ch1
   | Blocks => Blocks
   | Panics => Panics
   end, h1).

(** [UpgradeBackground]: the channel as the goroutine leaves it. *)
Definition UpgradeBackground (E : Env) (ctx : Context) (packagePath : string)
    (pick : select_case) (h : Hist) : outcome Chan * Hist :=
  let ch := make_chan 1 in
  background E ctx packagePath pick ch h.

(** ** [NewBuildInfo] called from several execution units

    Each unit runs [u.NewBuildInfo()] over and over; [sync.Once] is modelled
    after its implementation ([Do] loads [done] and enters [doSlow] when it
    is 0; [doSlow] locks [m], loads [done] again, runs [f] and then, by its
    deferred calls, stores 1 in [done] and unlocks [m]).  A unit is at one of
    the program points below, a schedule is the list of the units that take
    the successive steps, and a unit that waits for the mutex does not
    move. *)

Inductive pc :=
| Call                                 (* if o.done.Load() == 0 *)
| Lock                                 (* o.m.Lock() *)
| Check                                (* if o.done.Load() == 0, in doSlow *)
| CallExecutable                       (* execPath, err := os.Executable() *)
| CallReadFile (execPath : string)     (* buildinfo.ReadFile(execPath) *)
| StoreDone                            (* deferred o.done.Store(1) *)
| Unlock                               (* deferred o.m.Unlock() *)
| Return.                              (* return u.newInfo, u.newInfoErr *)

(** The units that hold [o.m]. *)
Definition in_doSlow (p : pc) : bool :=
  match p with
  | Check | CallExecutable | CallReadFile _ | StoreDone | Unlock => true
  | Call | Lock | Return => false
  end.

Record cstate := {
  obj : UpgradeResult;                 (* the shared *UpgradeResult *)
  mu : option nat;                     (* o.m: the unit that holds it *)
  world : Hist;
  pcs : nat -> pc;
  performers : list nat;               (* the units that have entered f *)
  returned : list (nat * (option BuildInfo * option error))
}.

Definition set_pc (pcs : nat -> pc) (t : nat) (p : pc) : nat -> pc :=
  fun t' => if t' =? t then p else pcs t'.

Definition cinit (u : UpgradeResult) (h : Hist) : cstate :=
  {| obj := u; mu := None; world := h; pcs := fun _ => Call;
     performers := []; returned := [] |}.

(** One step of unit [t]; [None] when [t] cannot move (the mutex is held). *)
Definition step (E : Env) (t : nat) (s : cstate) : option cstate :=
  let u := obj s in
  let goto p :=
    {| obj := u; mu := mu s; world := world s; pcs := set_pc (pcs s) t p;
       performers := performers s; returned := returned s |} in
  match pcs s t with
  | Call => Some (goto (if once u then Return else Lock))
  | Lock =>
      match mu s with
      | Some _ => None
      | None =>
          Some {| obj := u; mu := Some t; world := world s;
                  pcs := set_pc (pcs s) t Check;
                  performers := performers s; returned := returned s |}
      end
  | Check =>
      if once u then Some (goto Unlock)
      else
        Some {| obj := u; mu := mu s; world := world s;
                pcs := set_pc (pcs s) t CallExecutable;
                performers := performers s ++ [t]; returned := returned s |}
  | CallExecutable =>
      let (execPath, err) := Executable E (executables (world s)) in
      match err with
      | Some e =>
          Some {| obj := store_newInfoErr u (Some e);
                  mu := mu s; world := record_executable (world s);
                  pcs := set_pc (pcs s) t StoreDone;
                  performers := performers s; returned := returned s |}
      | None =>
          Some {| obj := u; mu := mu s; world := record_executable (world s);
                  pcs := set_pc (pcs s) t (CallReadFile execPath);
                  performers := performers s; returned := returned s |}
      end
  | CallReadFile execPath =>
      let (info, err) := ReadFile E (length (reads (world s))) execPath in
      Some {| obj := store_newInfo u info err;
              mu := mu s; world := record_read execPath (world s);
              pcs := set_pc (pcs s) t StoreDone;
              performers := performers s; returned := returned s |}
  | StoreDone =>
      Some {| obj := store_done u;
              mu := mu s; world := world s;
              pcs := set_pc (pcs s) t Unlock;
              performers := performers s; returned := returned s |}
  | Unlock =>
      Some {| obj := u; mu := None; world := world s;
              pcs := set_pc (pcs s) t Return;
              performers := performers s; returned := returned s |}
  | Return =>
      Some {| obj := u; mu := mu s; world := world s;
              pcs := set_pc (pcs s) t Call;
              performers := performers s;
              returned := returned s ++ [(t, (newInfo u, newInfoErr u))] |}
  end.

(** The state after the units of [sched] have taken their steps in turn. *)
Fixpoint run (E : Env) (sched : list nat) (s : cstate) : cstate :=
  match sched with
  | [] => s
  | t :: sched' =>
      match step E t s with
      | Some s' => run E sched' s'
      | None => run E sched' s
      end
  end.

(** ** Contracts of the collaborators and well-formed results *)

(** [buildinfo.ReadFile] returns either the build information and a nil
    error, or no build information and an error. *)
Definition read_result_ok (r : option BuildInfo * option error) : bool :=
  match r with
  | (Some _, None) | (None, Some _) => true
  | _ => false
  end.

Definition reader_ok (E : Env) : Prop :=
  forall k name, read_result_ok (ReadFile E k name) = true.

(** The lazy fields of an [UpgradeResult] that the package has built and
    used: unresolved, they hold their zero values; resolved, exactly one of
    [newInfo] and [newInfoErr] is nil. *)
Definition cache_ok (u : UpgradeResult) : bool :=
  if once u then read_result_ok (newInfo u, newInfoErr u)
  else match newInfo u, newInfoErr u with
       | None, None => true
       | _, _ => false
       end.

(** [n] successive calls of [u.NewBuildInfo()]: the pairs returned, in
    order, the result and the history after the last call. *)
Fixpoint NewBuildInfo_times (E : Env) (n : nat) (u : UpgradeResult) (h : Hist)
  : list (option BuildInfo * option error) * UpgradeResult * Hist :=
  match n with
  | O => ([], u, h)
  | S n' =>
      let '(r, u1, h1) := NewBuildInfo E u h in
      let '(rs, u2, h2) := NewBuildInfo_times E n' u1 h1 in
      (r :: rs, u2, h2)
  end.

(** ** Sample environments

    A released build [example.com/tool v1.0.0] whose install fails with
    [exit status 1], whose executable path is found at the first call only
    when [found] holds, and whose file then reads as version [v1.1.0]. *)
Definition sample_info (v : string) : BuildInfo :=
  {| Main := {| Path := "example.com/tool"; Version := v |} |}.

Definition sample_env (found : bool) : Env :=
  {| ReadBuildInfo := Some (sample_info "v1.0.0");
     Run := fun _ _ _ => Some "exit status 1";
     Executable := fun k =>
       if found then ("/go/bin/tool", None)
       else ("", Some "readlink /proc/self/exe: no such file or directory");
     ReadFile := fun k _ =>
       if k =? 0 then (Some (sample_info "v1.1.0"), None)
       else (None, Some "could not read Go build info") |}.

Definition cancelled : Context := {| Err := Some "context canceled" |}.
Definition running : Context := {| Err := None |}.

(** ** The invariant of the concurrent runs

    The runs start from [cinit u0 h0] with [u0] unresolved.  [NewBuildInfo E
    u0 h0], the call made by one unit alone, gives the pair [rf], the result
    [uf] and the history [hf] that every run must end with. *)

(** What holds of the shared state when a unit is at a program point. *)
Definition pc_inv (E : Env) (u0 : UpgradeResult) (h0 : Hist) (s : cstate)
    (t : nat) (p : pc) : Prop :=
  let uf := snd (fst (NewBuildInfo E u0 h0)) in
  let hf := snd (NewBuildInfo E u0 h0) in
  match p with
  | Call | Lock => True
  | Check =>
      mu s = Some t
      /\ (once (obj s) = false ->
          obj s = u0 /\ world s = h0 /\ performers s = [])
  | CallExecutable =>
      mu s = Some t /\ obj s = u0 /\ world s = h0 /\ performers s = [t]
  | CallReadFile execPath =>
      mu s = Some t /\ obj s = u0 /\ world s = record_executable h0
      /\ Executable E (executables h0) = (execPath, None)
      /\ performers s = [t]
  | StoreDone =>
      mu s = Some t /\ once (obj s) = false /\ store_done (obj s) = uf
      /\ world s = hf /\ performers s = [t]
  | Unlock => mu s = Some t /\ once (obj s) = true
  | Return => once (obj s) = true
  end.

Record cinv (E : Env) (u0 : UpgradeResult) (h0 : Hist) (s : cstate) : Prop := {
  inv_pcs : forall t, pc_inv E u0 h0 s t (pcs s t);
  inv_mu : forall t, mu s = Some t -> in_doSlow (pcs s t) = true;
  inv_done :
    once (obj s) = true ->
    obj s = snd (fst (NewBuildInfo E u0 h0))
    /\ world s = snd (NewBuildInfo E u0 h0)
    /\ exists t, performers s = [t];
  inv_free :
    once (obj s) = false -> mu s = None ->
    obj s = u0 /\ world s = h0 /\ performers s = [];
  inv_returned :
    forall t v, In (t, v) (returned s) ->
    v = fst (fst (NewBuildInfo E u0 h0)) /\ once (obj s) = true
}.

(** * Properties *)

(** ** The synchronous attempt *)

Section UpgradeFacts.

Variables (E : Env) (ctx : Context) (packagePath : string) (h : Hist).

Lemma Upgrade_unreadable :
  ReadBuildInfo E = None ->
  Upgrade E ctx packagePath h = (mkUpgradeResult None None, h).
Proof. unfold Upgrade. intros ->. reflexivity. Qed.

Lemma Upgrade_devel info :
  ReadBuildInfo E = Some info ->
  Version (Main info) = devel ->
  Upgrade E ctx packagePath h = (mkUpgradeResult (Some info) None, h).
Proof.
  unfold Upgrade. intros -> Hv. rewrite Hv, String.eqb_refl. reflexivity.
Qed.

Lemma Upgrade_no_module info :
  ReadBuildInfo E = Some info ->
  Path (Main info) = "" ->
  Upgrade E ctx packagePath h = (mkUpgradeResult (Some info) None, h).
Proof.
  unfold Upgrade. intros -> Hp. rewrite Hp.
  destruct (Version (Main info) =? devel)%string; reflexivity.
Qed.

Lemma Upgrade_installs info :
  ReadBuildInfo E = Some info ->
  Version (Main info) <> devel ->
  Path (Main info) <> "" ->
  Upgrade E ctx packagePath h =
    (mkUpgradeResult (Some info)
       (Run E ctx (length (runs h)) (install_cmd packagePath info)),
     record_run (install_cmd packagePath info) h).
Proof.
  unfold Upgrade. intros -> Hv Hp.
  apply String.eqb_neq in Hv, Hp. rewrite Hv, Hp. reflexivity.
Qed.

Lemma Upgrade_cases :
  (ReadBuildInfo E = None)
  \/ (exists info, ReadBuildInfo E = Some info
        /\ (Version (Main info) = devel \/ Path (Main info) = ""))
  \/ (exists info, ReadBuildInfo E = Some info
        /\ Version (Main info) <> devel /\ Path (Main info) <> "").
Proof.
  destruct (ReadBuildInfo E) as [info|]; [|now left].
  right.
  destruct (String.eqb_spec (Version (Main info)) devel) as [Hv|Hv].
  - left. exists info. auto.
  - destruct (String.eqb_spec (Path (Main info)) "") as [Hp|Hp].
    + left. exists info. auto.
    + right. exists info. auto.
Qed.

Lemma runs_grow (cmd : list string) : runs (record_run cmd h) <> runs h.
Proof.
  simpl. intros H. apply (f_equal (@length _)) in H.
  rewrite length_app in H. simpl in H. lia.
Qed.

(** What every branch of [Upgrade] returns: the build information read,
    and unresolved lazy fields. *)
Lemma Upgrade_result_fresh :
  CurrentInfo (fst (Upgrade E ctx packagePath h)) = ReadBuildInfo E
  /\ once (fst (Upgrade E ctx packagePath h)) = false.
Proof.
  unfold Upgrade. destruct (ReadBuildInfo E) as [info|]; [|auto].
  destruct (Version (Main info) =? devel)%string; [auto|].
  destruct (Path (Main info) =? "")%string; auto.
Qed.

End UpgradeFacts.

(** C3: [Upgrade] skips the install step exactly when the current build
    information is unreadable, or its version is ["(devel)"], or its module
    path is empty.  On unreadable build information the result has a nil
    [CurrentInfo] and a nil [ExitError]; on the sentinel or the empty module
    path it carries the build information, has a nil [ExitError] and no
    command is run; otherwise exactly the command
    [go install fullPath(modulePath, packagePath, "latest")] is run. *)
Theorem Upgrade_gate (E : Env) (ctx : Context) (packagePath : string) (h : Hist) :
  (runs (snd (Upgrade E ctx packagePath h)) = runs h <->
     ReadBuildInfo E = None
     \/ exists info, ReadBuildInfo E = Some info
          /\ (Version (Main info) = "(devel)" \/ Path (Main info) = ""))
  /\ (ReadBuildInfo E = None ->
      Upgrade E ctx packagePath h = (mkUpgradeResult None None, h))
  /\ (forall info, ReadBuildInfo E = Some info ->
      Version (Main info) = "(devel)" \/ Path (Main info) = "" ->
      Upgrade E ctx packagePath h = (mkUpgradeResult (Some info) None, h))
  /\ (forall info, ReadBuildInfo E = Some info ->
      Version (Main info) <> "(devel)" -> Path (Main info) <> "" ->
      let cmd := ["go"; "install";
                  fullPath (Path (Main info)) packagePath "latest"] in
      Upgrade E ctx packagePath h =
        (mkUpgradeResult (Some info) (Run E ctx (length (runs h)) cmd),
         {| runs := runs h ++ [cmd];
            executables := executables h; reads := reads h |})).
Proof.
  split; [|split; [|split]].
  - split.
    + intros Hruns.
      destruct (Upgrade_cases E) as [Hn | [(info & Hi & Hs) | (info & Hi & Hv & Hp)]].
      * now left.
      * right. now exists info.
      * rewrite (Upgrade_installs E ctx packagePath h info Hi Hv Hp) in Hruns.
        now apply runs_grow in Hruns.
    + intros [Hn | (info & Hi & [Hv | Hp])].
      * now rewrite Upgrade_unreadable.
      * now rewrite (Upgrade_devel E ctx packagePath h info).
      * now rewrite (Upgrade_no_module E ctx packagePath h info).
  - apply Upgrade_unreadable.
  - intros info Hi [Hv | Hp].
    + now apply Upgrade_devel.
    + now apply Upgrade_no_module.
  - intros info Hi Hv Hp. apply (Upgrade_installs E ctx packagePath h info Hi Hv Hp).
Qed.

(** ** The lazily resolved build information, one caller *)

Section LazyFacts.

Variable E : Env.

Lemma NewBuildInfo_resolved (u : UpgradeResult) (h : Hist) :
  once u = true ->
  NewBuildInfo E u h = ((newInfo u, newInfoErr u), u, h).
Proof. unfold NewBuildInfo, once_Do. intros ->. reflexivity. Qed.

Lemma NewBuildInfo_unresolved (u : UpgradeResult) (h : Hist) :
  once u = false ->
  NewBuildInfo E u h =
    let (u1, h1) := resolve E u h in
    ((newInfo u1, newInfoErr u1), store_done u1, h1).
Proof.
  unfold NewBuildInfo, once_Do. intros ->.
  destruct (resolve E u h) as [u1 h1]. reflexivity.
Qed.

(** After a call the result is resolved and holds the pair just returned. *)
Lemma NewBuildInfo_caches (u : UpgradeResult) (h : Hist) :
  let '(r, u1, h1) := NewBuildInfo E u h in
  once u1 = true /\ r = (newInfo u1, newInfoErr u1)
  /\ CurrentInfo u1 = CurrentInfo u /\ ExitError u1 = ExitError u.
Proof.
  destruct (once u) eqn:Ho.
  - rewrite (NewBuildInfo_resolved u h Ho). auto.
  - rewrite (NewBuildInfo_unresolved u h Ho). unfold resolve.
    destruct (Executable E (executables h)) as [p [e|]]; simpl; auto.
    destruct (ReadFile E _ p) as [info err]; simpl; auto.
Qed.

(** The calls a first resolution makes: one [os.Executable], and one
    [buildinfo.ReadFile] when the path was found. *)
Lemma NewBuildInfo_calls (u : UpgradeResult) (h : Hist) :
  let h1 := snd (NewBuildInfo E u h) in
  runs h1 = runs h
  /\ executables h1 <= S (executables h)
  /\ length (reads h1) <= S (length (reads h)).
Proof.
  destruct (once u) eqn:Ho.
  - rewrite (NewBuildInfo_resolved u h Ho). simpl. auto.
  - rewrite (NewBuildInfo_unresolved u h Ho). unfold resolve.
    destruct (Executable E (executables h)) as [p [e|]]; simpl; auto.
    destruct (ReadFile E _ p) as [info err]; simpl. rewrite length_app. simpl.
    repeat split; lia.
Qed.

Lemma cache_ok_mk (info : option BuildInfo) (err : option error) :
  cache_ok (mkUpgradeResult info err) = true.
Proof. reflexivity. Qed.

(** Under the contract of the reader a resolution keeps the cache
    well formed. *)
Lemma NewBuildInfo_cache_ok (u : UpgradeResult) (h : Hist) :
  reader_ok E -> cache_ok u = true ->
  cache_ok (snd (fst (NewBuildInfo E u h))) = true.
Proof.
  intros HE Hu. destruct (once u) eqn:Ho.
  - rewrite (NewBuildInfo_resolved u h Ho). exact Hu.
  - rewrite (NewBuildInfo_unresolved u h Ho). unfold resolve.
    unfold cache_ok in Hu. rewrite Ho in Hu.
    destruct (newInfo u) eqn:Hn; [discriminate|].
    destruct (Executable E (executables h)) as [p [e|]]; simpl.
    + unfold cache_ok. simpl. rewrite Hn. reflexivity.
    + specialize (HE (length (reads (record_executable h))) p).
      destruct (ReadFile E _ p) as [info err]. exact HE.
Qed.

Lemma NewBuildInfo_times_resolved (n : nat) (u : UpgradeResult) (h : Hist) :
  once u = true ->
  NewBuildInfo_times E n u h = (repeat (newInfo u, newInfoErr u) n, u, h).
Proof.
  intros Ho. induction n as [|n IH]; simpl; [reflexivity|].
  rewrite (NewBuildInfo_resolved u h Ho), IH. reflexivity.
Qed.

End LazyFacts.

(** ** [DidUpgrade] and the install error *)

Section DidUpgradeFacts.

Variable E : Env.

Lemma DidUpgrade_no_info (u : UpgradeResult) (h : Hist) :
  CurrentInfo u = None -> DidUpgrade E u h = (false, u, h).
Proof. unfold DidUpgrade. intros ->. reflexivity. Qed.

Lemma DidUpgrade_devel (u : UpgradeResult) (h : Hist) (cur : BuildInfo) :
  CurrentInfo u = Some cur -> Version (Main cur) = devel ->
  DidUpgrade E u h = (false, u, h).
Proof.
  unfold DidUpgrade. intros -> Hv. rewrite Hv, String.eqb_refl. reflexivity.
Qed.

Lemma DidUpgrade_released (u : UpgradeResult) (h : Hist) (cur : BuildInfo) :
  CurrentInfo u = Some cur -> Version (Main cur) <> devel ->
  DidUpgrade E u h =
    let '(r, u1, h1) := NewBuildInfo E u h in
    (match fst r with
     | Some n => negb (Version (Main n) =? Version (Main cur))%string
     | None => false
     end, u1, h1).
Proof.
  unfold DidUpgrade. intros -> Hv. apply String.eqb_neq in Hv. rewrite Hv.
  destruct (NewBuildInfo E u h) as [[[ni ne] u1] h1]. reflexivity.
Qed.

(** [DidUpgrade] never reads [ExitError]. *)
Lemma DidUpgrade_ignores_ExitError (u : UpgradeResult) (h : Hist)
    (err : option error) :
  fst (fst (DidUpgrade E (with_ExitError u err) h)) = fst (fst (DidUpgrade E u h))
  /\ snd (DidUpgrade E (with_ExitError u err) h) = snd (DidUpgrade E u h).
Proof.
  unfold DidUpgrade, NewBuildInfo, once_Do, resolve. simpl.
  destruct (CurrentInfo u) as [cur|]; [|auto].
  destruct (Version (Main cur) =? devel)%string; [auto|].
  destruct (once u); [auto|].
  destruct (Executable E (executables h)) as [p [e|]]; [auto|].
  destruct (ReadFile E _ p) as [info e']. auto.
Qed.

Lemma DidUpgrade_true (u : UpgradeResult) (h : Hist) :
  fst (fst (DidUpgrade E u h)) = true ->
  exists cur n,
    CurrentInfo u = Some cur
    /\ fst (fst (fst (NewBuildInfo E u h))) = Some n
    /\ Version (Main n) <> Version (Main cur).
Proof.
  unfold DidUpgrade.
  destruct (CurrentInfo u) as [cur|]; [|discriminate].
  destruct (Version (Main cur) =? devel)%string; [discriminate|].
  destruct (NewBuildInfo E u h) as [[[ni ne] u1] h1]. simpl.
  destruct ni as [n|]; [|discriminate].
  intros Hb. exists cur, n. repeat split.
  apply String.eqb_neq. now destruct (Version (Main n) =? Version (Main cur))%string.
Qed.

End DidUpgradeFacts.

(** C4: [DidUpgrade] is false when [CurrentInfo] is nil and false when its
    version is ["(devel)"], and in both cases nothing is resolved; otherwise
    it resolves the new build information as [NewBuildInfo] does, is false
    when the resolution ended in an error and otherwise true exactly when
    the new version differs from the current one; the pair it resolved,
    error included, is what [NewBuildInfo] returns on the same result
    afterwards. *)
Theorem DidUpgrade_spec (E : Env) (u : UpgradeResult) (h : Hist) :
  reader_ok E -> cache_ok u = true ->
  (CurrentInfo u = None -> DidUpgrade E u h = (false, u, h))
  /\ (forall cur, CurrentInfo u = Some cur -> Version (Main cur) = "(devel)" ->
      DidUpgrade E u h = (false, u, h))
  /\ (forall cur, CurrentInfo u = Some cur -> Version (Main cur) <> "(devel)" ->
      exists info err u1 h1 b,
        NewBuildInfo E u h = ((info, err), u1, h1)
        /\ DidUpgrade E u h = (b, u1, h1)
        /\ (err <> None -> b = false)
        /\ (err = None ->
            exists n, info = Some n
              /\ (b = true <-> Version (Main n) <> Version (Main cur)))
        /\ (forall E' h', NewBuildInfo E' u1 h' = ((info, err), u1, h'))).
Proof.
  intros HE Hu. split; [|split].
  - apply DidUpgrade_no_info.
  - intros cur Hc Hv. now apply DidUpgrade_devel with cur.
  - intros cur Hc Hv.
    pose proof (DidUpgrade_released E u h cur Hc Hv) as Hd.
    pose proof (NewBuildInfo_caches E u h) as Hcache.
    pose proof (NewBuildInfo_cache_ok E u h HE Hu) as Hok.
    destruct (NewBuildInfo E u h) as [[[info err] u1] h1]. simpl in *.
    destruct Hcache as (Ho & Hr & _). injection Hr as Hi He.
    unfold cache_ok in Hok. rewrite Ho, <- Hi, <- He in Hok.
    eexists info, err, u1, h1, _. split; [reflexivity|]. split; [exact Hd|].
    split; [|split].
    + intros Herr. destruct info; [|reflexivity].
      destruct err; [discriminate|congruence].
    + intros ->. destruct info as [n|]; [|discriminate].
      exists n. split; [reflexivity|].
      destruct (String.eqb_spec (Version (Main n)) (Version (Main cur)));
        simpl; split; intros; congruence.
    + intros E' h'. rewrite (NewBuildInfo_resolved E' u1 h' Ho).
      now rewrite <- Hi, <- He.
Qed.

(** A released build whose new executable reads as another version. *)
Lemma DidUpgrade_spec_witness :
  reader_ok (sample_env true)
  /\ cache_ok (mkUpgradeResult (Some (sample_info "v1.0.0")) None) = true
  /\ DidUpgrade (sample_env true)
       (mkUpgradeResult (Some (sample_info "v1.0.0")) None) no_calls
     = (true,
        store_done (store_newInfo
          (mkUpgradeResult (Some (sample_info "v1.0.0")) None)
          (Some (sample_info "v1.1.0")) None),
        record_read "/go/bin/tool" (record_executable no_calls)).
Proof.
  assert (HE : reader_ok (sample_env true)).
  { intros k name. simpl. destruct (k =? 0); reflexivity. }
  split; [exact HE|]. split; [reflexivity|].
  destruct (DidUpgrade_spec (sample_env true)
              (mkUpgradeResult (Some (sample_info "v1.0.0")) None) no_calls
              HE eq_refl) as (_ & _ & H).
  destruct (H (sample_info "v1.0.0") eq_refl) as (info & err & u1 & h1 & b & Hn & Hd & _).
  { discriminate. }
  rewrite Hd. vm_compute in Hn. injection Hn as <- <- <- <-.
  vm_compute in Hd. injection Hd as <-. reflexivity.
Defined.

(** C5: the [ExitError] of the result of [Upgrade] is non-nil exactly when
    a command was run and [Run] returned an error; it is then that very
    error; it is nil when the install succeeds or is skipped; at most one
    command is run; and [DidUpgrade] does not depend on [ExitError]: it is
    true only when the new version read differs from the current one. *)
Theorem Upgrade_ExitError (E : Env) (ctx : Context) (packagePath : string)
    (h : Hist) :
  let u := fst (Upgrade E ctx packagePath h) in
  let h1 := snd (Upgrade E ctx packagePath h) in
  (ExitError u <> None <->
     exists cmd, h1 = record_run cmd h
       /\ Run E ctx (length (runs h)) cmd <> None)
  /\ (forall cmd, h1 = record_run cmd h ->
        ExitError u = Run E ctx (length (runs h)) cmd)
  /\ (h1 = h -> ExitError u = None)
  /\ (h1 = h \/ exists cmd, h1 = record_run cmd h)
  /\ (forall E' err h',
        fst (fst (DidUpgrade E' (with_ExitError u err) h'))
        = fst (fst (DidUpgrade E' u h')))
  /\ (forall E' h', fst (fst (DidUpgrade E' u h')) = true ->
        exists cur n, CurrentInfo u = Some cur
          /\ fst (fst (fst (NewBuildInfo E' u h'))) = Some n
          /\ Version (Main n) <> Version (Main cur)).
Proof.
  intros u h1.
  assert (Hcases :
    (h1 = h /\ ExitError u = None)
    \/ exists cmd, h1 = record_run cmd h
         /\ ExitError u = Run E ctx (length (runs h)) cmd).
  { subst u h1.
    destruct (Upgrade_cases E) as [Hn | [(info & Hi & [Hv|Hp]) | (info & Hi & Hv & Hp)]].
    - rewrite Upgrade_unreadable by assumption. now left.
    - rewrite (Upgrade_devel E ctx packagePath h info) by assumption. now left.
    - rewrite (Upgrade_no_module E ctx packagePath h info) by assumption. now left.
    - rewrite (Upgrade_installs E ctx packagePath h info) by assumption.
      right. now exists (install_cmd packagePath info). }
  assert (Hinj : forall c1 c2, record_run c1 h = record_run c2 h -> c1 = c2).
  { intros c1 c2 Hc. apply (f_equal runs) in Hc. simpl in Hc.
    apply app_inv_head in Hc. now injection Hc. }
  assert (Hne : forall c, record_run c h <> h).
  { intros c Hc. apply (f_equal runs) in Hc. now apply runs_grow in Hc. }
  repeat split.
  - intros He. destruct Hcases as [[_ Hn] | (cmd & Hh & Hx)]; [contradiction|].
    exists cmd. split; [exact Hh|]. now rewrite <- Hx.
  - intros (cmd & Hh & Hr).
    destruct Hcases as [[Hh' _] | (cmd' & Hh' & Hx)].
    + rewrite Hh' in Hh. symmetry in Hh. now apply Hne in Hh.
    + rewrite Hh' in Hh. apply Hinj in Hh. subst cmd'. now rewrite Hx.
  - intros cmd Hh. destruct Hcases as [[Hh' _] | (cmd' & Hh' & Hx)].
    + rewrite Hh' in Hh. symmetry in Hh. now apply Hne in Hh.
    + rewrite Hh' in Hh. apply Hinj in Hh. now subst cmd'.
  - intros Hh. destruct Hcases as [[_ Hn] | (cmd & Hh' & _)]; [exact Hn|].
    rewrite Hh in Hh'. symmetry in Hh'. now apply Hne in Hh'.
  - destruct Hcases as [[Hh _] | (cmd & Hh & _)]; [now left|right; now exists cmd].
  - intros E' err h'. apply DidUpgrade_ignores_ExitError.
  - intros E' h'. apply DidUpgrade_true.
Qed.

(** C10: when [os.Executable] fails at the first call of [NewBuildInfo] on
    a result as [Upgrade] builds it, [buildinfo.ReadFile] is not called, the
    call returns nil build information with the error of [os.Executable],
    and every later call on that result, whatever the environment has become,
    returns the same pair and calls nothing. *)
Theorem NewBuildInfo_path_error (E : Env) (info : option BuildInfo)
    (err : option error) (h : Hist) (p : string) (e : error) :
  Executable E (executables h) = (p, Some e) ->
  exists u1,
    NewBuildInfo E (mkUpgradeResult info err) h
      = ((None, Some e), u1, record_executable h)
    /\ reads (record_executable h) = reads h
    /\ forall E' n h',
         NewBuildInfo_times E' n u1 h' = (repeat (None, Some e) n, u1, h').
Proof.
  intros He.
  exists (store_done (store_newInfoErr (mkUpgradeResult info err) (Some e))).
  split; [|split].
  - rewrite NewBuildInfo_unresolved by reflexivity.
    unfold resolve. rewrite He. reflexivity.
  - reflexivity.
  - intros E' n h'. now rewrite NewBuildInfo_times_resolved.
Qed.

Lemma NewBuildInfo_path_error_witness :
  exists u1,
    NewBuildInfo (sample_env false) (mkUpgradeResult None None) no_calls
      = ((None, Some "readlink /proc/self/exe: no such file or directory"),
         u1, record_executable no_calls)
    /\ reads (record_executable no_calls) = reads no_calls
    /\ forall E' n h',
         NewBuildInfo_times E' n u1 h'
         = (repeat (None, Some "readlink /proc/self/exe: no such file or directory") n,
            u1, h').
Proof.
  apply (NewBuildInfo_path_error (sample_env false) None None no_calls "").
  reflexivity.
Defined.

(** ** The background attempt *)

Section BackgroundFacts.

Variables (E : Env) (ctx : Context) (packagePath : string) (h : Hist).

(** The channel after one value has been sent on it and it has been closed. *)
Lemma send_close_fresh (v : UpgradeResult) :
  match send (make_chan 1) v with
  | Proceeds ch => close ch
  | Blocks => Blocks
  | Panics => Panics
  end = Proceeds {| buf := [v]; cap := 1; closed := true |}.
Proof. reflexivity. Qed.

(** On the fresh channel the send case can always proceed, so the [select]
    never blocks; it takes the cancellation case only if the context is
    done. *)
Lemma select_fresh (pick : select_case) :
  select ctx (make_chan 1) pick
  = Proceeds (if Done_closed ctx then pick else CaseSend).
Proof. unfold select. simpl. destruct (Done_closed ctx); reflexivity. Qed.

Lemma UpgradeBackground_delivers (pick : select_case) :
  UpgradeBackground E ctx packagePath pick h =
    (Proceeds {| buf := [match select ctx (make_chan 1) pick with
                         | Proceeds CaseDone => mkUpgradeResult None (Err ctx)
                         | _ => fst (Upgrade E ctx packagePath h)
                         end];
                 cap := 1; closed := true |},
     snd (Upgrade E ctx packagePath h)).
Proof.
  unfold UpgradeBackground, background. rewrite select_fresh.
  destruct (Upgrade E ctx packagePath h) as [r h1]. simpl.
  destruct (Done_closed ctx); [destruct pick|]; reflexivity.
Qed.

End BackgroundFacts.

(** A context that is not done: the result of [Upgrade], with the error of
    the failed install, is delivered. *)
Example UpgradeBackground_running :
  fst (UpgradeBackground (sample_env true) running "cmd/tool" CaseDone no_calls)
  = Proceeds
      {| buf := [mkUpgradeResult (Some (sample_info "v1.0.0"))
                   (Some "exit status 1")];
         cap := 1; closed := true |}
  /\ runs (snd (UpgradeBackground (sample_env true) running "cmd/tool"
                  CaseDone no_calls))
     = [["go"; "install"; "example.com/tool/cmd/tool@latest"]].
Proof. split; reflexivity. Qed.

(** C2: whatever the context, the package path and the choice of the
    [select], [UpgradeBackground] sends exactly one result on its channel
    and then closes it: the goroutine neither blocks nor panics, the closed
    channel holds one value, which is the result of [Upgrade] or, only if
    the context is done, the cancellation result; the receiver gets that
    value first and the closed-channel zero value ever after. *)
Theorem UpgradeBackground_one_result (E : Env) (ctx : Context)
    (packagePath : string) (pick : select_case) (h : Hist) :
  exists r,
    fst (UpgradeBackground E ctx packagePath pick h)
      = Proceeds {| buf := [r]; cap := 1; closed := true |}
    /\ (r = fst (Upgrade E ctx packagePath h)
        \/ (Err ctx <> None /\ r = mkUpgradeResult None (Err ctx)))
    /\ (exists ch1,
          recv {| buf := [r]; cap := 1; closed := true |}
            = Proceeds (Some r, true, ch1)
          /\ recv ch1 = Proceeds (None, false, ch1)).
Proof.
  rewrite UpgradeBackground_delivers, select_fresh. simpl.
  eexists. split; [reflexivity|]. split.
  - unfold Done_closed. destruct (Err ctx) as [e|]; [|now left].
    destruct pick; [right|now left]. split; [discriminate|reflexivity].
  - eexists. split; reflexivity.
Qed.

(** C9: when the [select] of [UpgradeBackground] takes the cancellation
    case, the result delivered has a nil [CurrentInfo] and the error of the
    context as [ExitError], whatever build information [Upgrade] had read;
    [DidUpgrade] on it is false and resolves nothing: the result and the
    history of calls are left as they were. *)
Theorem UpgradeBackground_cancelled (E : Env) (ctx : Context)
    (packagePath : string) (pick : select_case) (h : Hist) :
  select ctx (make_chan 1) pick = Proceeds CaseDone ->
  let r := mkUpgradeResult None (Err ctx) in
  fst (UpgradeBackground E ctx packagePath pick h)
    = Proceeds {| buf := [r]; cap := 1; closed := true |}
  /\ Err ctx <> None
  /\ CurrentInfo r = None /\ ExitError r = Err ctx
  /\ forall E' h', DidUpgrade E' r h' = (false, r, h').
Proof.
  intros Hs r. rewrite UpgradeBackground_delivers, Hs. simpl.
  split; [reflexivity|]. split; [|auto].
  rewrite select_fresh in Hs. unfold Done_closed in Hs.
  destruct (Err ctx); [discriminate|].
  injection Hs. discriminate.
Qed.

(** The build information is readable, the context is cancelled and the
    [select] takes the cancellation case. *)
Lemma UpgradeBackground_cancelled_witness :
  ReadBuildInfo (sample_env true) = Some (sample_info "v1.0.0")
  /\ fst (UpgradeBackground (sample_env true) cancelled "cmd/tool" CaseDone no_calls)
     = Proceeds {| buf := [mkUpgradeResult None (Some "context canceled")];
                   cap := 1; closed := true |}
  /\ DidUpgrade (sample_env true)
       (mkUpgradeResult None (Some "context canceled")) no_calls
     = (false, mkUpgradeResult None (Some "context canceled"), no_calls).
Proof.
  destruct (UpgradeBackground_cancelled (sample_env true) cancelled "cmd/tool"
              CaseDone no_calls eq_refl) as (H1 & _ & _ & _ & H2).
  split; [reflexivity|]. split; [exact H1|]. apply H2.
Defined.

(** ** The lazily resolved build information, several callers *)

Section ConcurrentFacts.

Variables (E : Env) (u0 : UpgradeResult) (h0 : Hist).
Hypothesis unresolved : once u0 = false.

Lemma set_pc_same (f : nat -> pc) (t : nat) (p : pc) : set_pc f t p t = p.
Proof. unfold set_pc. now rewrite Nat.eqb_refl. Qed.

Lemma set_pc_other (f : nat -> pc) (t t' : nat) (p : pc) :
  t' <> t -> set_pc f t p t' = f t'.
Proof. unfold set_pc. intros H. apply Nat.eqb_neq in H. now rewrite H. Qed.

Lemma cinit_inv : cinv E u0 h0 (cinit u0 h0).
Proof.
  constructor; simpl; auto.
  - discriminate.
  - rewrite unresolved. discriminate.
  - contradiction.
Qed.

(** A unit that holds no mutex is at a point whose invariant does not
    mention the shared state, or at [Return]. *)
Lemma pc_inv_not_holder (s : cstate) (t t' : nat) :
  pc_inv E u0 h0 s t' (pcs s t') -> mu s = Some t -> t' <> t ->
  pcs s t' = Call \/ pcs s t' = Lock \/ pcs s t' = Return.
Proof.
  intros Hp Hm Hne.
  destruct (pcs s t'); simpl in Hp; auto;
    (destruct Hp as [Hp _]; rewrite Hm in Hp; injection Hp; congruence).
Qed.

Lemma pc_inv_unlocked (s : cstate) (t' : nat) :
  pc_inv E u0 h0 s t' (pcs s t') -> mu s = None ->
  pcs s t' = Call \/ pcs s t' = Lock \/ pcs s t' = Return.
Proof.
  intros Hp Hm.
  destruct (pcs s t'); simpl in Hp; auto;
    (destruct Hp as [Hp _]; rewrite Hm in Hp; discriminate).
Qed.

(** The invariant of a unit other than the one that moves, when the move
    keeps the shared state. *)
Lemma pc_inv_frame (s s' : cstate) (t' : nat) (p : pc) :
  obj s' = obj s -> mu s' = mu s -> world s' = world s ->
  performers s' = performers s ->
  pc_inv E u0 h0 s t' p -> pc_inv E u0 h0 s' t' p.
Proof.
  intros Ho Hm Hw Hp.
  destruct p; simpl; rewrite ?Ho, ?Hm, ?Hw, ?Hp; auto.
Qed.

(** The invariant of a unit outside [doSlow], when the move keeps a
    resolved result resolved. *)
Lemma pc_inv_outside (s s' : cstate) (t' : nat) :
  pcs s t' = Call \/ pcs s t' = Lock \/ pcs s t' = Return ->
  pc_inv E u0 h0 s t' (pcs s t') ->
  (once (obj s) = true -> once (obj s') = true) ->
  pc_inv E u0 h0 s' t' (pcs s t').
Proof.
  intros [Hc | [Hc | Hc]] Hp Ho; rewrite Hc in *; simpl in *; auto.
Qed.

Ltac other_unit Hinv Hm :=
  match goal with
  | Hne : ?t' <> ?t |- pc_inv _ _ _ _ ?t' _ =>
      rewrite set_pc_other by exact Hne;
      apply pc_inv_outside;
      [ first [ eapply pc_inv_not_holder; [apply Hinv | exact Hm | exact Hne]
              | eapply pc_inv_unlocked; [apply Hinv | exact Hm] ]
      | apply Hinv
      | simpl; auto ]
  end.

Lemma step_inv (s s' : cstate) (t : nat) :
  cinv E u0 h0 s -> step E t s = Some s' -> cinv E u0 h0 s'.
Proof.
  intros Hinv Hstep.
  pose proof (inv_pcs _ _ _ _ Hinv t) as Ht.
  unfold step in Hstep.
  destruct (pcs s t) eqn:Hpc; simpl in Ht.
  - (* Call *)
    injection Hstep as <-.
    constructor; simpl.
    + intros t'. destruct (Nat.eq_dec t' t) as [->|Hne].
      * rewrite set_pc_same. destruct (once (obj s)) eqn:Ho; simpl; auto.
      * rewrite set_pc_other by exact Hne.
        apply pc_inv_frame with s; auto. apply Hinv.
    + intros t' Hm. destruct (Nat.eq_dec t' t) as [->|Hne].
      * apply (inv_mu _ _ _ _ Hinv) in Hm. rewrite Hpc in Hm. discriminate.
      * rewrite set_pc_other by exact Hne. now apply Hinv.
    + apply Hinv.
    + apply Hinv.
    + apply Hinv.
  - (* Lock *)
    destruct (mu s) eqn:Hm; [discriminate|]. injection Hstep as <-.
    constructor; simpl.
    + intros t'. destruct (Nat.eq_dec t' t) as [->|Hne].
      * rewrite set_pc_same. simpl. split; [reflexivity|].
        intros Ho. now apply Hinv.
      * other_unit Hinv Hm.
    + intros t' Ht'. injection Ht' as <-. now rewrite set_pc_same.
    + apply Hinv.
    + discriminate.
    + apply Hinv.
  - (* Check *)
    destruct Ht as [Hm Hfresh].
    destruct (once (obj s)) eqn:Ho; injection Hstep as <-.
    + constructor; simpl.
      * intros t'. destruct (Nat.eq_dec t' t) as [->|Hne].
        -- rewrite set_pc_same. simpl. auto.
        -- rewrite set_pc_other by exact Hne.
           apply pc_inv_frame with s; auto. apply Hinv.
      * intros t' Ht'. rewrite Hm in Ht'. injection Ht' as <-.
        now rewrite set_pc_same.
      * apply Hinv.
      * apply Hinv.
      * apply Hinv.
    + destruct (Hfresh eq_refl) as (Hu & Hw & Hp).
      constructor; simpl.
      * intros t'. destruct (Nat.eq_dec t' t) as [->|Hne].
        -- rewrite set_pc_same. simpl. rewrite Hp. auto.
        -- other_unit Hinv Hm.
      * intros t' Ht'. rewrite Hm in Ht'. injection Ht' as <-.
        now rewrite set_pc_same.
      * rewrite Ho. discriminate.
      * rewrite Hm. discriminate.
      * intros t' v Hin. apply (inv_returned _ _ _ _ Hinv) in Hin.
        destruct Hin as [_ Hin]. congruence.
  - (* CallExecutable *)
    destruct Ht as (Hm & Hu & Hw & Hp).
    assert (Ho : once (obj s) = false) by (now rewrite Hu).
    rewrite Hw in Hstep.
    destruct (Executable E (executables h0)) as [execPath [e|]] eqn:He;
      injection Hstep as <-.
    + constructor; simpl.
      * intros t'. destruct (Nat.eq_dec t' t) as [->|Hne].
        -- rewrite set_pc_same. simpl. rewrite ?Hu, ?Hw.
           rewrite (NewBuildInfo_unresolved E u0 h0 unresolved).
           unfold resolve. rewrite He. simpl. rewrite unresolved. auto.
        -- other_unit Hinv Hm.
      * intros t' Ht'. rewrite Hm in Ht'. injection Ht' as <-.
        now rewrite set_pc_same.
      * rewrite Ho. discriminate.
      * rewrite Hm. discriminate.
      * intros t' v Hin. apply (inv_returned _ _ _ _ Hinv) in Hin.
        destruct Hin as [_ Hin]. congruence.
    + constructor; simpl.
      * intros t'. destruct (Nat.eq_dec t' t) as [->|Hne].
        -- rewrite set_pc_same. simpl. rewrite ?Hw. auto.
        -- other_unit Hinv Hm.
      * intros t' Ht'. rewrite Hm in Ht'. injection Ht' as <-.
        now rewrite set_pc_same.
      * rewrite Ho. discriminate.
      * rewrite Hm. discriminate.
      * intros t' v Hin. apply (inv_returned _ _ _ _ Hinv) in Hin.
        destruct Hin as [_ Hin]. congruence.
  - (* CallReadFile *)
    destruct Ht as (Hm & Hu & Hw & He & Hp).
    assert (Ho : once (obj s) = false) by (now rewrite Hu).
    rewrite Hw in Hstep.
    destruct (ReadFile E (length (reads (record_executable h0))) execPath)
      as [info err] eqn:Hr.
    injection Hstep as <-.
    constructor; simpl.
    + intros t'. destruct (Nat.eq_dec t' t) as [->|Hne].
      * rewrite set_pc_same. simpl. rewrite ?Hu, ?Hw.
        rewrite (NewBuildInfo_unresolved E u0 h0 unresolved).
        unfold resolve. rewrite He, Hr. simpl. rewrite unresolved. auto.
      * other_unit Hinv Hm.
    + intros t' Ht'. rewrite Hm in Ht'. injection Ht' as <-.
      now rewrite set_pc_same.
    + rewrite Ho. discriminate.
    + rewrite Hm. discriminate.
    + intros t' v Hin. apply (inv_returned _ _ _ _ Hinv) in Hin.
      destruct Hin as [_ Hin]. congruence.
  - (* StoreDone *)
    destruct Ht as (Hm & Ho & Hu & Hw & Hp).
    injection Hstep as <-.
    constructor; simpl.
    + intros t'. destruct (Nat.eq_dec t' t) as [->|Hne].
      * rewrite set_pc_same. simpl. auto.
      * other_unit Hinv Hm.
    + intros t' Ht'. rewrite Hm in Ht'. injection Ht' as <-.
      now rewrite set_pc_same.
    + intros _. split; [exact Hu|]. split; [exact Hw|]. now exists t.
    + discriminate.
    + intros t' v Hin. apply (inv_returned _ _ _ _ Hinv) in Hin.
      destruct Hin as [_ Hin]. congruence.
  - (* Unlock *)
    destruct Ht as (Hm & Ho).
    injection Hstep as <-.
    constructor; simpl.
    + intros t'. destruct (Nat.eq_dec t' t) as [->|Hne].
      * rewrite set_pc_same. simpl. auto.
      * other_unit Hinv Hm.
    + discriminate.
    + apply Hinv.
    + rewrite Ho. discriminate.
    + apply Hinv.
  - (* Return *)
    injection Hstep as <-.
    constructor; simpl.
    + intros t'. destruct (Nat.eq_dec t' t) as [->|Hne].
      * now rewrite set_pc_same.
      * rewrite set_pc_other by exact Hne.
        apply pc_inv_frame with s; auto. apply Hinv.
    + intros t' Hm. destruct (Nat.eq_dec t' t) as [->|Hne].
      * apply (inv_mu _ _ _ _ Hinv) in Hm. rewrite Hpc in Hm. discriminate.
      * rewrite set_pc_other by exact Hne. now apply Hinv.
    + apply Hinv.
    + apply Hinv.
    + intros t' v Hin. apply in_app_or in Hin. destruct Hin as [Hin|Hin].
      * now apply (inv_returned _ _ _ _ Hinv) in Hin.
      * destruct Hin as [Hin|[]]. injection Hin as <- <-.
        split; [|exact Ht].
        destruct (inv_done _ _ _ _ Hinv Ht) as (Hu & _).
        pose proof (NewBuildInfo_caches E u0 h0) as Hc.
        destruct (NewBuildInfo E u0 h0) as [[r uf] hf]. simpl in *.
        destruct Hc as (_ & -> & _). now rewrite Hu.
Qed.

Lemma run_inv (sched : list nat) (s : cstate) :
  cinv E u0 h0 s -> cinv E u0 h0 (run E sched s).
Proof.
  revert s. induction sched as [|t sched IH]; intros s Hinv; simpl.
  - exact Hinv.
  - destruct (step E t s) as [s'|] eqn:Hs.
    + apply IH. now apply step_inv with s t.
    + now apply IH.
Qed.


End ConcurrentFacts.


Ltac one_step :=
  cbn [run repeat]; unfold step at 1;
  cbn [pcs obj mu world performers returned once mkUpgradeResult cinit
       store_newInfo store_newInfoErr store_done newInfo newInfoErr];
  rewrite ?set_pc_same;
  cbn [pcs obj mu world performers returned once mkUpgradeResult cinit
       store_newInfo store_newInfoErr store_done newInfo newInfoErr].

(** A unit that runs alone has called and returned within eight steps,
    with the pair, the result and the history of the sequential call: the
    model does return, and [NewBuildInfo] is what one unit does. *)
Lemma run_alone (E : Env) (info : option BuildInfo) (err : option error)
    (h : Hist) (t : nat) :
  let u := mkUpgradeResult info err in
  exists pcs',
    run E (repeat t 8) (cinit u h)
    = {| obj := snd (fst (NewBuildInfo E u h)); mu := None;
         world := snd (NewBuildInfo E u h); pcs := pcs';
         performers := [t];
         returned := [(t, fst (fst (NewBuildInfo E u h)))] |}.
Proof.
  intros u. subst u.
  rewrite NewBuildInfo_unresolved by reflexivity. unfold resolve.
  one_step. one_step. one_step. one_step.
  destruct (Executable E (executables h)) as [p [e|]] eqn:He.
  - one_step. one_step. one_step. one_step.
    eexists. reflexivity.
  - one_step.
    destruct (ReadFile E (length (reads (record_executable h))) p)
      as [i e'] eqn:Hr.
    one_step. one_step. one_step. eexists. reflexivity.
Qed.

(** Two units interleaved on a released build: one resolution, two equal
    results. *)
Example run_two_units :
  let s := run (sample_env true) [0; 1; 0; 1; 0; 1; 0; 0; 0; 0; 0; 1; 1; 1; 1; 0; 1]
             (cinit (mkUpgradeResult (Some (sample_info "v1.0.0")) None) no_calls) in
  returned s = [(0, (Some (sample_info "v1.1.0"), None));
                (1, (Some (sample_info "v1.1.0"), None))]
  /\ world s = {| runs := []; executables := 1; reads := ["/go/bin/tool"] |}
  /\ performers s = [0].
Proof. vm_compute. auto. Qed.

(** ** [path.Clean] and [fullPath] *)

Section CleanFacts.

Import path.

Lemma is_slash_slash : is_slash slash = true.
Proof. reflexivity. Qed.

Lemma slash_free_app (a b : list ascii) :
  slash_free (a ++ b) = slash_free a && slash_free b.
Proof. unfold slash_free. apply forallb_app. Qed.

(** *** The copy loop *)

Lemma copy_elem_spec (rest : list ascii) :
  let (e, rest') := copy_elem rest in
  rest = e ++ rest' /\ slash_free e = true /\ at_end_or_slash rest' = true.
Proof.
  induction rest as [|c rest IH]; simpl; [auto|].
  destruct (is_slash c) eqn:Hc; simpl.
  - rewrite Hc. auto.
  - destruct (copy_elem rest) as [e r]. destruct IH as (-> & He & Hr).
    simpl. rewrite Hc, He. auto.
Qed.

Lemma copy_elem_cons (c : ascii) (rest : list ascii) :
  is_slash c = false ->
  exists e rest', copy_elem (c :: rest) = (c :: e, rest')
    /\ length rest' <= length rest.
Proof.
  intros Hc. simpl. rewrite Hc.
  pose proof (copy_elem_spec rest) as Hs.
  destruct (copy_elem rest) as [e r]. destruct Hs as (-> & _).
  exists e, r. split; [reflexivity|]. rewrite length_app. lia.
Qed.

(** An element that ends at a slash is copied whole. *)
Lemma copy_elem_app (e rest : list ascii) :
  slash_free e = true -> at_end_or_slash rest = true ->
  copy_elem (e ++ rest) = (e, rest).
Proof.
  intros He Hr. induction e as [|c e IH]; simpl in *.
  - destruct rest as [|c r]; [reflexivity|]. simpl in Hr. simpl. now rewrite Hr.
  - apply andb_prop in He. destruct He as [Hc He].
    apply negb_true_iff in Hc. rewrite Hc, (IH He). reflexivity.
Qed.

(** *** Removing the last element written *)

Lemma backtrack_rev_to_slash (e r : list ascii) (d : nat) :
  slash_free e = true -> d <= length r ->
  backtrack_rev (e ++ slash :: r) d = r.
Proof.
  intros He Hd. induction e as [|c e IH]; simpl in *.
  - rewrite andb_false_r. reflexivity.
  - apply andb_prop in He. destruct He as [Hc He]. rewrite Hc.
    rewrite length_app. simpl.
    replace (d <? length e + S (length r)) with true
      by (symmetry; apply Nat.ltb_lt; lia).
    simpl. now apply IH.
Qed.

Lemma backtrack_rev_to_dotdot (e r : list ascii) :
  slash_free e = true -> e <> [] ->
  backtrack_rev (e ++ r) (length r) = r.
Proof.
  intros He Hn. induction e as [|c e IH]; [contradiction|]. simpl in *.
  apply andb_prop in He. destruct He as [Hc He]. rewrite Hc.
  destruct e as [|c' e].
  - simpl. rewrite Nat.ltb_irrefl. reflexivity.
  - replace (length r <? length ((c' :: e) ++ r)) with true
      by (symmetry; apply Nat.ltb_lt; rewrite length_app; simpl; lia).
    simpl. apply IH; [exact He|discriminate].
Qed.

Lemma slash_free_rev (e : list ascii) : slash_free (rev e) = slash_free e.
Proof.
  induction e as [|c e IH]; [reflexivity|]. simpl.
  rewrite slash_free_app, IH. simpl. rewrite andb_true_r. apply andb_comm.
Qed.

Lemma backtrack_to_slash (out e : list ascii) (d : nat) :
  slash_free e = true -> d <= length out ->
  backtrack (out ++ slash :: e) d = out.
Proof.
  intros He Hd. unfold backtrack.
  rewrite rev_app_distr. simpl. rewrite <- app_assoc. simpl.
  rewrite backtrack_rev_to_slash.
  - apply rev_involutive.
  - now rewrite slash_free_rev.
  - now rewrite length_rev.
Qed.

Lemma backtrack_to_dotdot (out e : list ascii) :
  slash_free e = true -> e <> [] ->
  backtrack (out ++ e) (length out) = out.
Proof.
  intros He Hn. unfold backtrack.
  rewrite rev_app_distr, <- (length_rev out), backtrack_rev_to_dotdot.
  - apply rev_involutive.
  - now rewrite slash_free_rev.
  - intros Hr. apply Hn. apply (f_equal (@rev _)) in Hr.
    now rewrite rev_involutive in Hr.
Qed.

(** *** Rendered stacks *)

Lemma elem_ok_inv (e : list ascii) :
  elem_ok e = true -> e <> [] /\ slash_free e = true.
Proof.
  unfold elem_ok. intros H. apply andb_prop in H. destruct H as [Hn Hs].
  split; [|exact Hs]. intros ->. discriminate.
Qed.

Lemma all_elems_dotdots (k : nat) (reals : list (list ascii)) :
  all_elems reals -> all_elems (repeat [dot; dot] k ++ reals).
Proof.
  intros H. apply Forall_app. split; [|exact H].
  apply Forall_forall. intros e He. apply repeat_spec in He. now subst e.
Qed.

Lemma join_elems_cons (e : list ascii) (es : list (list ascii)) :
  es <> [] -> join_elems (e :: es) = e ++ slash :: join_elems es.
Proof. destruct es; [contradiction|reflexivity]. Qed.

Lemma join_elems_snoc (es : list (list ascii)) (e : list ascii) :
  es <> [] -> join_elems (es ++ [e]) = join_elems es ++ slash :: e.
Proof.
  induction es as [|a es IH]; [contradiction|]. intros _.
  destruct es as [|b es]; [reflexivity|].
  change ((a :: b :: es) ++ [e]) with (a :: ((b :: es) ++ [e])).
  rewrite join_elems_cons by (destruct es; discriminate).
  rewrite IH by discriminate.
  rewrite (join_elems_cons a (b :: es)) by discriminate.
  now rewrite <- app_assoc.
Qed.

Lemma join_elems_nil (es : list (list ascii)) :
  all_elems es -> join_elems es = [] -> es = [].
Proof.
  intros Hall Hj. destruct es as [|e es]; [reflexivity|]. exfalso.
  inversion Hall as [|? ? He _]; subst.
  apply elem_ok_inv in He. destruct He as [Hn _].
  destruct es; simpl in Hj.
  - contradiction.
  - destruct e; [contradiction|discriminate].
Qed.

Lemma join_elems_app_length (a b : list (list ascii)) :
  length (join_elems a) <= length (join_elems (a ++ b)).
Proof.
  induction b as [|e b IH] using rev_ind.
  - now rewrite app_nil_r.
  - rewrite app_assoc. destruct (a ++ b) as [|x l] eqn:Hab.
    + apply app_eq_nil in Hab. destruct Hab as [-> _]. simpl. lia.
    + rewrite join_elems_snoc by discriminate.
      rewrite length_app. lia.
Qed.

Lemma render_nil_length (rooted : bool) (k : nat) (reals : list (list ascii)) :
  length (render rooted k []) <= length (render rooted k reals).
Proof.
  unfold render. rewrite app_nil_r, !length_app.
  pose proof (join_elems_app_length (repeat [dot; dot] k) reals). lia.
Qed.

Lemma render_snoc (rooted : bool) (k : nat) (reals : list (list ascii))
    (e : list ascii) :
  render rooted k (reals ++ [e]) =
    match repeat [dot; dot] k ++ reals with
    | [] => render rooted k reals ++ e
    | _ => render rooted k reals ++ slash :: e
    end.
Proof.
  unfold render. rewrite app_assoc.
  destruct (repeat [dot; dot] k ++ reals) as [|x l] eqn:Hx.
  - simpl. now rewrite app_nil_r.
  - rewrite join_elems_snoc by discriminate. now rewrite app_assoc.
Qed.

(** The buffer is longer than [dotdot] exactly when an element can be
    removed. *)
Lemma can_backtrack (rooted : bool) (k : nat) (reals : list (list ascii)) :
  all_elems reals ->
  (length (render rooted k []) <? length (render rooted k reals))
  = match reals with [] => false | _ => true end.
Proof.
  intros Hall. destruct reals as [|r reals]; [apply Nat.ltb_irrefl|].
  apply Nat.ltb_lt.
  destruct (exists_last (l := r :: reals)) as (reals0 & e & Heq); [discriminate|].
  rewrite Heq in *. apply Forall_app in Hall. destruct Hall as [_ Hall].
  inversion Hall as [|? ? He _]; subst. apply elem_ok_inv in He.
  destruct He as [Hn _].
  pose proof (render_nil_length rooted k reals0) as Hle.
  rewrite render_snoc.
  destruct (repeat [dot; dot] k ++ reals0); rewrite length_app; simpl;
    destruct e; try contradiction; simpl; lia.
Qed.

Lemma backtrack_render (rooted : bool) (k : nat) (reals : list (list ascii)) :
  all_elems reals -> reals <> [] ->
  backtrack (render rooted k reals) (length (render rooted k []))
  = render rooted k (removelast reals).
Proof.
  intros Hall Hne.
  destruct (exists_last Hne) as (reals0 & e & Heq). subst reals.
  rewrite removelast_last.
  apply Forall_app in Hall. destruct Hall as [_ Hall].
  inversion Hall as [|? ? He _]; subst. apply elem_ok_inv in He.
  destruct He as [Hn Hs].
  rewrite render_snoc.
  destruct (repeat [dot; dot] k ++ reals0) as [|x l] eqn:Hx.
  - apply app_eq_nil in Hx. destruct Hx as [Hk ->].
    now apply backtrack_to_dotdot.
  - apply backtrack_to_slash; [exact Hs|]. apply render_nil_length.
Qed.

Lemma render_length_0 (k : nat) (reals : list (list ascii)) :
  all_elems reals ->
  (length (render false k reals) =? 0)
  = match repeat [dot; dot] k ++ reals with [] => true | _ => false end.
Proof.
  intros Hall. unfold render. simpl.
  destruct (repeat [dot; dot] k ++ reals) as [|x l] eqn:Hx; [reflexivity|].
  apply Nat.eqb_neq. intros Hl. apply length_zero_iff_nil in Hl.
  apply join_elems_nil in Hl; [discriminate|].
  rewrite <- Hx. now apply all_elems_dotdots.
Qed.

Lemma render_length_1 (reals : list (list ascii)) :
  all_elems reals ->
  (length (render true 0 reals) =? 1)
  = match reals with [] => true | _ => false end.
Proof.
  intros Hall. unfold render. rewrite length_app.
  change (repeat [dot; dot] 0 ++ reals) with reals.
  destruct reals as [|x l] eqn:Hx; [reflexivity|].
  apply Nat.eqb_neq. intros Hl. change (length [slash]) with 1 in Hl.
  assert (H0 : length (join_elems (x :: l)) = 0) by lia.
  apply length_zero_iff_nil in H0.
  apply join_elems_nil in H0; [discriminate|exact Hall].
Qed.

(** Adding the slash that is needed and the element copied. *)
Lemma push_render (rooted : bool) (k : nat) (reals : list (list ascii))
    (e : list ascii) :
  all_elems reals -> (rooted = true -> k = 0) ->
  let out := render rooted k reals in
  (if (rooted && negb (length out =? 1))
      || (negb rooted && negb (length out =? 0))
   then out ++ [slash] else out) ++ e
  = render rooted k (reals ++ [e]).
Proof.
  intros Hall Hk out. subst out. rewrite render_snoc.
  destruct rooted.
  - rewrite (Hk eq_refl) in *. rewrite render_length_1 by exact Hall.
    change (repeat [dot; dot] 0 ++ reals) with reals.
    destruct reals; [reflexivity|].
    cbn [andb orb negb]. now rewrite <- app_assoc.
  - rewrite render_length_0 by exact Hall.
    destruct (repeat [dot; dot] k ++ reals); [reflexivity|].
    cbn [andb orb negb]. now rewrite <- app_assoc.
Qed.

(** Appending a [..] element that cannot be removed. *)
Lemma dotdot_render (k : nat) :
  let out := render false k [] in
  (if 0 <? length out then out ++ [slash] else out) ++ [dot; dot]
  = render false (S k) [].
Proof.
  intros out.
  assert (Hs : render false (S k) [] = render false k ([] ++ [[dot; dot]])).
  { unfold render. rewrite app_nil_r. cbn [repeat app].
    now rewrite (repeat_cons k [dot; dot]). }
  rewrite Hs, <- push_render by (constructor || discriminate).
  fold out. cbn [andb orb negb].
  now destruct (length out).
Qed.

(** *** The loop of [Clean] on the stack *)

Lemma all_elems_removelast (reals : list (list ascii)) :
  all_elems reals -> all_elems (removelast reals).
Proof.
  intros Hall. destruct reals as [|r reals]; [exact Hall|].
  destruct (exists_last (l := r :: reals)) as (l0 & e & Heq); [discriminate|].
  rewrite Heq in *. rewrite removelast_last.
  apply Forall_app in Hall. tauto.
Qed.

Lemma copy_elem_ok (c : ascii) (rest e rest' : list ascii) :
  is_slash c = false -> copy_elem (c :: rest) = (e, rest') ->
  elem_ok e = true /\ length rest' <= length rest.
Proof.
  intros Hc He.
  pose proof (copy_elem_spec (c :: rest)) as Hs. rewrite He in Hs.
  destruct Hs as (_ & Hf & _).
  destruct (copy_elem_cons c rest Hc) as (e0 & r0 & He0 & Hl).
  rewrite He in He0. injection He0 as -> ->.
  split; [|exact Hl]. unfold elem_ok. now rewrite Hf.
Qed.

Lemma stack_loop_elems (fuel : nat) (rooted : bool) :
  forall rest k reals,
  all_elems reals -> (rooted = true -> k = 0) ->
  all_elems (snd (stack_loop fuel rooted rest k reals))
  /\ (rooted = true -> fst (stack_loop fuel rooted rest k reals) = 0).
Proof.
  induction fuel as [|fuel IH]; intros rest k reals Hall Hk;
    cbn [stack_loop]; [auto|].
  destruct rest as [|c rest1]; [auto|].
  destruct (is_slash c) eqn:Hc; [now apply IH|].
  destruct (is_dot c && at_end_or_slash rest1); [now apply IH|].
  destruct (is_dot c && _).
  - destruct reals as [|r reals].
    + destruct rooted; cbn [negb].
      * apply IH; auto.
      * apply IH; [constructor|discriminate].
    + apply IH; [|exact Hk]. now apply all_elems_removelast.
  - destruct (copy_elem (c :: rest1)) as [e rest'] eqn:He.
    apply copy_elem_ok in He; [|exact Hc]. destruct He as [He _].
    apply IH; [|exact Hk]. apply Forall_app. split; [exact Hall|].
    constructor; [exact He|constructor].
Qed.

(** The buffer of [Clean] is the rendered stack, and [dotdot] is the
    length of what cannot be removed from it. *)
Lemma clean_loop_render (fuel : nat) (rooted : bool) :
  forall rest k reals,
  all_elems reals -> (rooted = true -> k = 0) ->
  clean_loop fuel rooted rest (render rooted k reals)
    (length (render rooted k []))
  = render rooted (fst (stack_loop fuel rooted rest k reals))
      (snd (stack_loop fuel rooted rest k reals)).
Proof.
  induction fuel as [|fuel IH]; intros rest k reals Hall Hk; [reflexivity|].
  cbn [clean_loop stack_loop].
  destruct rest as [|c rest1]; [reflexivity|].
  destruct (is_slash c) eqn:Hc; [now apply IH|].
  destruct (is_dot c && at_end_or_slash rest1); [now apply IH|].
  destruct (is_dot c && _).
  - rewrite can_backtrack by exact Hall.
    destruct reals as [|r reals].
    + destruct rooted; cbn [negb].
      * now apply IH.
      * rewrite dotdot_render. apply IH; [constructor|discriminate].
    + rewrite backtrack_render by (exact Hall || discriminate).
      apply IH; [|exact Hk]. now apply all_elems_removelast.
  - destruct (copy_elem (c :: rest1)) as [e rest'] eqn:He.
    apply copy_elem_ok in He; [|exact Hc]. destruct He as [He _].
    rewrite push_render by assumption.
    apply IH; [|exact Hk]. apply Forall_app. split; [exact Hall|].
    constructor; [exact He|constructor].
Qed.

(** The iterations that [Clean] allows for are never used up: more fuel
    does not change what the loop computes. *)
Lemma clean_loop_fuel (rooted : bool) :
  forall n rest out dotdot m,
  length rest <= n -> n <= m ->
  clean_loop m rooted rest out dotdot = clean_loop n rooted rest out dotdot.
Proof.
  induction n as [|n IH]; intros rest out dotdot m Hr Hm.
  - destruct rest; [|simpl in Hr; lia]. now destruct m.
  - destruct m as [|m]; [lia|]. cbn [clean_loop].
    destruct rest as [|c rest1]; [reflexivity|]. simpl in Hr.
    destruct (is_slash c) eqn:Hc; [apply IH; lia|].
    destruct (is_dot c && at_end_or_slash rest1); [apply IH; lia|].
    destruct (is_dot c && _).
    + assert (length (tl rest1) <= n) by (destruct rest1; simpl in *; lia).
      destruct (dotdot <? length out); [apply IH; lia|].
      destruct (negb rooted); apply IH; lia.
    + destruct (copy_elem (c :: rest1)) as [e rest'] eqn:He.
      apply copy_elem_ok in He; [|exact Hc]. destruct He as [_ He].
      apply IH; lia.
Qed.

(** *** Slashes in a rendered stack *)

Lemma leading_slash_app (a b : list ascii) :
  leading_slash (a ++ b)
  = match a with [] => leading_slash b | _ => leading_slash a end.
Proof. now destruct a. Qed.

Lemma trailing_slash_app (a b : list ascii) :
  trailing_slash (a ++ b)
  = match b with [] => trailing_slash a | _ => trailing_slash b end.
Proof.
  unfold trailing_slash. rewrite rev_app_distr, leading_slash_app.
  destruct b as [|c b]; [reflexivity|].
  destruct (rev (c :: b)) eqn:Hr; [|reflexivity].
  apply (f_equal (@length _)) in Hr. rewrite length_rev in Hr. discriminate.
Qed.

Lemma trailing_slash_cons (c : ascii) (a : list ascii) :
  trailing_slash (c :: a)
  = match a with [] => is_slash c | _ => trailing_slash a end.
Proof. apply (trailing_slash_app [c] a). Qed.

Lemma no_double_slash_app (a b : list ascii) :
  no_double_slash (a ++ b)
  = no_double_slash a && no_double_slash b
    && negb (trailing_slash a && leading_slash b).
Proof.
  induction a as [|c a IH].
  - simpl. now rewrite andb_true_r.
  - destruct a as [|c' a].
    + change (no_double_slash ([c] ++ b))
        with (negb (is_slash c && leading_slash b) && no_double_slash b).
      change (trailing_slash [c]) with (is_slash c).
      change (no_double_slash [c]) with (negb (is_slash c && false) && true).
      destruct (is_slash c), (leading_slash b), (no_double_slash b);
        reflexivity.
    + change (no_double_slash ((c :: c' :: a) ++ b))
        with (negb (is_slash c && is_slash c')
              && no_double_slash ((c' :: a) ++ b)).
      change (no_double_slash (c :: c' :: a))
        with (negb (is_slash c && is_slash c') && no_double_slash (c' :: a)).
      rewrite IH, (trailing_slash_cons c (c' :: a)).
      now rewrite !andb_assoc.
Qed.

Lemma slash_free_slashes (e : list ascii) :
  slash_free e = true ->
  no_double_slash e = true /\ leading_slash e = false
  /\ trailing_slash e = false.
Proof.
  induction e as [|c e IH]; [auto|]. simpl. intros H.
  apply andb_prop in H. destruct H as [Hc He].
  apply negb_true_iff in Hc. destruct (IH He) as (Hn & Hl & Ht).
  rewrite trailing_slash_cons, Hc, Hn, Ht. simpl. now destruct e.
Qed.

Lemma join_elems_slashes (es : list (list ascii)) :
  all_elems es ->
  no_double_slash (join_elems es) = true
  /\ leading_slash (join_elems es) = false
  /\ trailing_slash (join_elems es) = false.
Proof.
  induction es as [|e es IH]; intros Hall; [auto|].
  inversion Hall as [|? ? He Hes]; subst.
  apply elem_ok_inv in He. destruct He as [Hn Hs].
  destruct (slash_free_slashes e Hs) as (He1 & He2 & He3).
  destruct es as [|e' es]; [simpl; auto|].
  destruct (IH Hes) as (H1 & H2 & H3).
  rewrite join_elems_cons by discriminate.
  set (J := join_elems (e' :: es)) in *.
  assert (HJ : J <> []).
  { intros HJ. apply join_elems_nil in HJ; [discriminate|exact Hes]. }
  rewrite no_double_slash_app, leading_slash_app, trailing_slash_app.
  cbn [no_double_slash leading_slash]. rewrite He1, He3, H1, trailing_slash_cons.
  destruct J as [|c J]; [contradiction|].
  simpl in H2. rewrite H2, H3. simpl.
  destruct e; [contradiction|]. auto.
Qed.

Lemma render_slashes (rooted : bool) (k : nat) (reals : list (list ascii)) :
  all_elems reals -> (rooted = true -> k = 0) ->
  let out := render rooted k reals in
  no_double_slash out = true
  /\ leading_slash out = rooted
  /\ (trailing_slash out = true -> out = [slash]).
Proof.
  intros Hall Hk out. subst out. unfold render.
  destruct (join_elems_slashes (repeat [dot; dot] k ++ reals)) as (H1 & H2 & H3);
    [now apply all_elems_dotdots|].
  destruct rooted; simpl.
  - rewrite H1.
    destruct (join_elems (repeat [dot; dot] k ++ reals)) as [|c J] eqn:HJ.
    + auto.
    + simpl in H2. rewrite H2. split; [reflexivity|]. split; [reflexivity|].
      change (slash :: c :: J) with ([slash] ++ c :: J).
      rewrite trailing_slash_app, H3. discriminate.
  - rewrite H1, H2, H3. split; [reflexivity|]. split; [reflexivity|discriminate].
Qed.

(** *** [Clean] *)

Lemma Clean_bytes_render (p : list ascii) :
  p <> [] ->
  exists k reals,
    all_elems reals
    /\ (leading_slash p = true -> k = 0)
    /\ stack_loop (length (if leading_slash p then tl p else p))
         (leading_slash p) (if leading_slash p then tl p else p)
         0 [] = (k, reals)
    /\ Clean_bytes p
       = match render (leading_slash p) k reals with
         | [] => [dot]
         | out => out
         end.
Proof.
  intros Hp. destruct p as [|c p']; [contradiction|]. cbn [leading_slash tl].
  set (rooted := is_slash c).
  set (rest := if rooted then p' else c :: p').
  destruct (stack_loop (length rest) rooted rest 0 []) as [k reals] eqn:Hs.
  exists k, reals.
  destruct (stack_loop_elems (length rest) rooted rest 0 []
              (Forall_nil _) (fun _ => eq_refl)) as (Hall & Hk).
  rewrite Hs in Hall, Hk. simpl in Hall, Hk.
  split; [exact Hall|]. split; [exact Hk|]. split; [reflexivity|].
  pose proof (clean_loop_render (length rest) rooted rest 0 []
                (Forall_nil _) (fun _ => eq_refl)) as Hr.
  rewrite Hs in Hr. cbn [fst snd] in Hr. rewrite <- Hr.
  subst rest rooted. unfold Clean_bytes.
  destruct (is_slash c);
    [ change (render true 0 []) with [slash]
    | change (render false 0 []) with (@nil ascii) ];
    cbn [length];
    match goal with |- context [clean_loop ?f ?r ?p ?o ?d] =>
      now destruct (clean_loop f r p o d) end.
Qed.

(** The normal form of [Clean]: not empty, no two slashes in a row, no
    trailing slash except in the root, rooted exactly when the argument
    is. *)
Lemma Clean_bytes_slashes (p : list ascii) :
  Clean_bytes p <> []
  /\ no_double_slash (Clean_bytes p) = true
  /\ leading_slash (Clean_bytes p) = leading_slash p
  /\ (trailing_slash (Clean_bytes p) = true -> Clean_bytes p = [slash]).
Proof.
  destruct p as [|c p'].
  - simpl. repeat split; discriminate.
  - destruct (Clean_bytes_render (c :: p')) as (k & reals & Hall & Hk & _ & ->);
      [discriminate|].
    destruct (render_slashes (leading_slash (c :: p')) k reals Hall Hk)
      as (H1 & H2 & H3).
    destruct (render (leading_slash (c :: p')) k reals) as [|x out] eqn:Hr.
    + rewrite <- H2. repeat split; discriminate.
    + repeat split; auto. discriminate.
Qed.

Lemma stack_loop_nil (fuel : nat) (rooted : bool) (k : nat)
    (reals : list (list ascii)) :
  stack_loop fuel rooted [] k reals = (k, reals).
Proof. now destruct fuel. Qed.

Lemma real_elem_inv (e : list ascii) :
  real_elem e = true ->
  exists c e1, e = c :: e1 /\ is_slash c = false /\ slash_free e1 = true
    /\ (is_dot c && at_end_or_slash e1 = false)
    /\ (is_dot c && match e1 with
                    | c1 :: e2 => is_dot c1 && at_end_or_slash e2
                    | [] => false
                    end = false).
Proof.
  unfold real_elem, elem_ok. intros H.
  apply andb_prop in H. destruct H as [H Hd].
  apply andb_prop in H. destruct H as [Hn Hs].
  destruct e as [|c e1]; [discriminate|]. exists c, e1.
  simpl in Hs. apply andb_prop in Hs. destruct Hs as [Hc Hs].
  apply negb_true_iff in Hc, Hd.
  split; [reflexivity|]. split; [exact Hc|]. split; [exact Hs|].
  destruct e1 as [|c1 e2]; simpl in *.
  - rewrite Hd. now rewrite andb_false_r.
  - apply andb_prop in Hs. destruct Hs as [Hc1 Hs].
    apply negb_true_iff in Hc1. rewrite Hc1, andb_false_r.
    split; [reflexivity|].
    destruct e2 as [|c2 e3]; simpl in *.
    + now rewrite andb_true_r.
    + apply andb_prop in Hs. destruct Hs as [Hc2 _].
      apply negb_true_iff in Hc2. now rewrite Hc2, !andb_false_r.
Qed.

Lemma slash_free_no_trailing (e : list ascii) :
  slash_free e = true -> trailing_slash e = false.
Proof. intros H. now apply slash_free_slashes in H. Qed.

Lemma boundary_tail (c : ascii) (pre : list ascii) :
  boundary (c :: pre) -> is_slash c = false ->
  pre <> [] /\ boundary pre.
Proof.
  intros [H|H] Hc; [discriminate|].
  rewrite trailing_slash_cons in H. destruct pre; [congruence|].
  split; [discriminate|now right].
Qed.

Lemma boundary_after_slash (c : ascii) (pre : list ascii) :
  boundary (c :: pre) -> boundary pre.
Proof.
  intros [H|H]; [discriminate|].
  rewrite trailing_slash_cons in H. destruct pre; [now left|now right].
Qed.

(** A real element at the end of the input ends up on top of the stack. *)
Lemma stack_loop_last (rooted : bool) (e : list ascii) :
  real_elem e = true ->
  forall fuel pre k reals,
  boundary pre -> length (pre ++ e) <= fuel ->
  exists reals',
    snd (stack_loop fuel rooted (pre ++ e) k reals) = reals' ++ [e].
Proof.
  intros He.
  destruct (real_elem_inv e He) as (c0 & e1 & -> & Hc0 & Hs1 & Hd1 & Hd2).
  assert (Hse : slash_free (c0 :: e1) = true) by (simpl; now rewrite Hc0).
  induction fuel as [|fuel IH]; intros pre k reals Hb Hl.
  - rewrite length_app in Hl. simpl in Hl. lia.
  - destruct pre as [|c pre1].
    + cbn [app stack_loop]. rewrite Hc0, Hd1, Hd2.
      pose proof (copy_elem_app (c0 :: e1) [] Hse eq_refl) as Hcp.
      rewrite app_nil_r in Hcp. rewrite Hcp.
      rewrite stack_loop_nil. now exists reals.
    + change ((c :: pre1) ++ c0 :: e1) with (c :: (pre1 ++ c0 :: e1)) in *.
      cbn [stack_loop]. simpl in Hl.
      destruct (is_slash c) eqn:Hc.
      { apply IH; [now apply boundary_after_slash with c|lia]. }
      destruct (boundary_tail c pre1 Hb Hc) as (Hn1 & Hb1).
      destruct (is_dot c && at_end_or_slash (pre1 ++ c0 :: e1)).
      { apply IH; [exact Hb1|lia]. }
      destruct (is_dot c && _) eqn:Hdd.
      * destruct pre1 as [|c1 pre2]; [contradiction|].
        cbn [app] in Hdd. apply andb_prop in Hdd. destruct Hdd as [_ Hdd].
        apply andb_prop in Hdd. destruct Hdd as [Hc1 _].
        assert (Hs1' : is_slash c1 = false).
        { unfold is_dot, is_slash in *. apply Ascii.eqb_eq in Hc1.
          now subst c1. }
        destruct (boundary_tail c1 pre2 Hb1 Hs1') as (Hn2 & Hb2).
        cbn [app tl]. simpl in Hl. rewrite length_app in *.
        destruct reals; [destruct (negb rooted)|]; apply IH; auto;
          rewrite length_app; lia.
      * pose proof (copy_elem_spec (c :: pre1)) as Hcp.
        destruct (copy_elem_cons c pre1 Hc) as (e0' & pre' & Hce & Hlen).
        rewrite Hce in Hcp. destruct Hcp as (Hpre & Hs0 & Hat).
        assert (Hpre' : pre' <> []).
        { intros ->. rewrite app_nil_r in Hpre.
          destruct Hb as [Hb|Hb]; [discriminate|].
          rewrite Hpre, slash_free_no_trailing in Hb by exact Hs0.
          discriminate. }
        assert (Hb' : boundary pre').
        { right. destruct Hb as [Hb|Hb]; [discriminate|].
          rewrite Hpre, trailing_slash_app in Hb.
          now destruct pre'. }
        change (c :: pre1 ++ c0 :: e1) with ((c :: pre1) ++ c0 :: e1).
        rewrite Hpre, <- app_assoc.
        rewrite (copy_elem_app (c :: e0') (pre' ++ c0 :: e1)).
        -- apply IH; [exact Hb'|]. rewrite length_app in *. simpl in *. lia.
        -- exact Hs0.
        -- destruct pre'; [contradiction|exact Hat].
Qed.

Lemma real_elem_head_len (e : list ascii) :
  real_elem e = true -> 1 <= length e.
Proof.
  intros He. destruct (real_elem_inv e He) as (c & e1 & -> & _).
  simpl. lia.
Qed.

(** One iteration of the loop copies a real element that ends at a slash
    or at the end of the input. *)
Lemma stack_loop_real_elem (rooted : bool) (e rest : list ascii)
    (fuel k : nat) (reals : list (list ascii)) :
  real_elem e = true -> at_end_or_slash rest = true ->
  stack_loop (S fuel) rooted (e ++ rest) k reals
  = stack_loop fuel rooted rest k (reals ++ [e]).
Proof.
  intros He Hr.
  destruct (real_elem_inv e He) as (c & e1 & -> & Hc & Hs1 & Hd1 & Hd2).
  assert (Hse : slash_free (c :: e1) = true) by (simpl; now rewrite Hc).
  assert (Hd1' : is_dot c && at_end_or_slash (e1 ++ rest) = false).
  { destruct e1 as [|c1 e2]; simpl in *.
    - rewrite andb_true_r in Hd1. now rewrite Hd1.
    - exact Hd1. }
  assert (Hd2' : is_dot c && match e1 ++ rest with
                            | c1 :: rest2 => is_dot c1 && at_end_or_slash rest2
                            | [] => false
                            end = false).
  { destruct e1 as [|c1 e2]; simpl in *.
    - rewrite andb_true_r in Hd1. now rewrite Hd1.
    - destruct e2 as [|c2 e3]; simpl in *.
      + rewrite andb_true_r in Hd2. now rewrite Hr, andb_true_r.
      + exact Hd2. }
  change ((c :: e1) ++ rest) with (c :: (e1 ++ rest)).
  cbn [stack_loop]. rewrite Hc, Hd1', Hd2'.
  change (c :: (e1 ++ rest)) with ((c :: e1) ++ rest).
  now rewrite (copy_elem_app (c :: e1) rest Hse Hr).
Qed.

(** Real elements separated by single slashes are copied one by one. *)
Lemma stack_loop_reals (rooted : bool) (es : list (list ascii)) :
  Forall (fun e => real_elem e = true) es ->
  forall fuel k reals,
  length (join_elems es) <= fuel ->
  stack_loop fuel rooted (join_elems es) k reals = (k, reals ++ es).
Proof.
  induction es as [|e es IH]; intros Hall fuel k reals Hl.
  - simpl. now rewrite stack_loop_nil, app_nil_r.
  - inversion Hall as [|? ? He Hes]; subst.
    pose proof (real_elem_head_len e He) as Hlen.
    destruct es as [|e' es].
    + simpl in *. destruct fuel as [|fuel]; [lia|].
      rewrite <- (app_nil_r e) at 1.
      rewrite stack_loop_real_elem by auto.
      now rewrite stack_loop_nil.
    + rewrite join_elems_cons in * by discriminate.
      rewrite length_app in Hl. cbn [length] in Hl.
      destruct fuel as [|[|fuel]]; [lia|lia|].
      rewrite stack_loop_real_elem by auto.
      cbn [stack_loop]. rewrite is_slash_slash.
      rewrite IH by (auto; lia).
      now rewrite <- app_assoc.
Qed.

Lemma real_all_elems (es : list (list ascii)) :
  Forall (fun e => real_elem e = true) es -> all_elems es.
Proof.
  apply Forall_impl. intros e He. unfold real_elem in He.
  apply andb_prop in He. tauto.
Qed.

(** [Clean] leaves real elements separated by single slashes as they
    are. *)
Lemma Clean_bytes_reals (es : list (list ascii)) :
  es <> [] -> Forall (fun e => real_elem e = true) es ->
  Clean_bytes (join_elems es) = join_elems es.
Proof.
  intros Hne Hall.
  pose proof (real_all_elems es Hall) as Hok.
  destruct (join_elems_slashes es Hok) as (_ & Hl & _).
  assert (Hp : join_elems es <> []).
  { intros H. now apply join_elems_nil in H. }
  destruct (Clean_bytes_render (join_elems es) Hp) as (k & reals & _ & _ & Hs & ->).
  rewrite Hl in *. rewrite stack_loop_reals in Hs by auto.
  injection Hs as <- <-. unfold render. simpl.
  now destruct (join_elems es).
Qed.

Lemma join_elems_app (a b : list (list ascii)) :
  a <> [] -> b <> [] ->
  join_elems (a ++ b) = join_elems a ++ slash :: join_elems b.
Proof.
  intros Ha Hb. induction b as [|e b IH] using rev_ind; [contradiction|].
  destruct b as [|e' b].
  - simpl. now apply join_elems_snoc.
  - rewrite app_assoc, join_elems_snoc by (destruct a; discriminate).
    rewrite IH by discriminate.
    rewrite (join_elems_snoc (e' :: b)) by discriminate.
    now rewrite <- app_assoc.
Qed.

(** Bytes appended to the last element. *)
Lemma join_elems_last_app (es : list (list ascii)) (e x : list ascii) :
  join_elems (es ++ [e ++ x]) = join_elems (es ++ [e]) ++ x.
Proof.
  destruct es as [|e' es]; [reflexivity|].
  rewrite !join_elems_snoc by discriminate.
  now rewrite <- app_assoc.
Qed.

Lemma real_elem_head (e : list ascii) :
  real_elem e = true -> e <> [] /\ leading_slash e = false.
Proof.
  intros He. destruct (real_elem_inv e He) as (c & e1 & -> & Hc & _).
  split; [discriminate|exact Hc].
Qed.

Lemma boundary_snoc_slash (a : list ascii) : boundary (a ++ [slash]).
Proof. right. now rewrite trailing_slash_app. Qed.

(** [Clean] keeps a real last element, after a slash or at the start. *)
Lemma Clean_bytes_last (pre e : list ascii) :
  boundary pre -> real_elem e = true ->
  exists pre', Clean_bytes (pre ++ e) = pre' ++ e /\ boundary pre'.
Proof.
  intros Hb He. destruct (real_elem_head e He) as (Hne & Hle).
  assert (Hp : pre ++ e <> []).
  { intros H. apply app_eq_nil in H. tauto. }
  destruct (Clean_bytes_render (pre ++ e) Hp) as (k & reals & Hall & Hk & Hs & ->).
  set (rooted := leading_slash (pre ++ e)) in *.
  assert (Hrest : exists pre0,
            (if rooted then tl (pre ++ e) else pre ++ e) = pre0 ++ e
            /\ boundary pre0).
  { destruct rooted eqn:Hr; [|now exists pre].
    subst rooted. rewrite leading_slash_app in Hr.
    destruct pre as [|c pre1]; [congruence|].
    exists pre1. split; [reflexivity|]. now apply boundary_after_slash with c. }
  destruct Hrest as (pre0 & Hrest & Hb0). rewrite Hrest in Hs.
  destruct (stack_loop_last rooted e He (length (pre0 ++ e)) pre0 0 [] Hb0
              (le_n _)) as (reals' & Hlast).
  rewrite Hs in Hlast. simpl in Hlast. subst reals.
  rewrite render_snoc.
  destruct (repeat [dot; dot] k ++ reals') as [|x l] eqn:Hx.
  - exists (render rooted k reals'). split.
    + destruct (render rooted k reals' ++ e) eqn:Hr; [|reflexivity].
      apply app_eq_nil in Hr. tauto.
    + unfold render. rewrite Hx. simpl. rewrite app_nil_r.
      destruct rooted; [now right|now left].
  - exists (render rooted k reals' ++ [slash]). split.
    + rewrite <- app_assoc. simpl.
      destruct (render rooted k reals' ++ slash :: e) eqn:Hr; [|reflexivity].
      apply app_eq_nil in Hr. destruct Hr as [_ Hr]. discriminate.
    + apply boundary_snoc_slash.
Qed.

End CleanFacts.

(** *** Strings and bytes *)

Lemma bytes_app (a b : string) : bytes (a ++ b) = bytes a ++ bytes b.
Proof.
  unfold bytes. induction a as [|c a IH]; simpl; [reflexivity|].
  now rewrite IH.
Qed.

Lemma bytes_inj (a b : string) : bytes a = bytes b -> a = b.
Proof.
  unfold bytes. intros H.
  rewrite <- (string_of_list_ascii_of_string a),
          <- (string_of_list_ascii_of_string b).
  now rewrite H.
Qed.

Lemma bytes_Clean (p : string) :
  bytes (path.Clean p) = path.Clean_bytes (bytes p).
Proof. unfold path.Clean, bytes. apply list_ascii_of_string_of_list_ascii. Qed.

Lemma string_app_assoc (a b c : string) :
  ((a ++ b) ++ c)%string = (a ++ (b ++ c))%string.
Proof. induction a as [|x a IH]; simpl; [reflexivity|]. now rewrite IH. Qed.

Lemma string_length_bytes (s : string) : String.length s = length (bytes s).
Proof.
  unfold bytes. induction s as [|c s IH]; simpl; [reflexivity|]. now rewrite IH.
Qed.

(** [path.Join] of the two elements of [fullPath]: the second is never
    empty, so [Clean] is always called. *)
Lemma fullPath_joined (modulePath packagePath version : string) :
  fullPath modulePath packagePath version
  = path.Clean (joined modulePath packagePath version).
Proof.
  unfold fullPath, path.Join, joined.
  set (pv := (packagePath ++ "@" ++ version)%string).
  assert (Hpv : String.length pv <> 0).
  { subst pv. rewrite string_length_bytes, !bytes_app, !length_app. simpl. lia. }
  assert (Hpv' : (pv =? "")%string = false).
  { apply String.eqb_neq. intros H. now rewrite H in Hpv. }
  cbn [fold_left path.join_buf].
  replace (0 + String.length modulePath + String.length pv =? 0) with false
    by (symmetry; apply Nat.eqb_neq; lia).
  cbn [String.length Nat.eqb negb orb].
  destruct (String.eqb_spec modulePath "") as [->|Hm].
  - cbn [negb String.append String.length Nat.eqb orb]. now rewrite Hpv'.
  - cbn [negb String.append].
    assert (Hl : (String.length modulePath =? 0) = false).
    { apply Nat.eqb_neq. destruct modulePath; [contradiction|discriminate]. }
    rewrite Hl. cbn [negb orb].
    now rewrite string_app_assoc.
Qed.

(** *** The last segment of the package path *)

Section LastSegment.

Import path.

Lemma is_dot_elem_dots (e : list ascii) :
  is_dot_elem e = true -> forallb is_dot e = true.
Proof.
  destruct e as [|c1 [|c2 [|c3 e]]]; simpl; try discriminate.
  - intros ->. reflexivity.
  - intros H. apply andb_prop in H. destruct H as [-> ->]. reflexivity.
Qed.

(** [seg@version] is a real element, whatever the segment and the
    version without a slash. *)
Lemma real_elem_at (seg v : list ascii) :
  slash_free seg = true -> slash_free v = true ->
  real_elem (seg ++ at_sign :: v) = true.
Proof.
  intros Hs Hv. unfold real_elem, elem_ok.
  rewrite slash_free_app, Hs. cbn [slash_free forallb].
  change (forallb (fun c => negb (is_slash c)) v) with (slash_free v).
  rewrite Hv, length_app. cbn [length].
  replace (length seg + S (length v) =? 0) with false
    by (symmetry; apply Nat.eqb_neq; lia).
  destruct (is_dot_elem (seg ++ at_sign :: v)) eqn:Hd; [|reflexivity].
  apply is_dot_elem_dots in Hd. rewrite forallb_app in Hd.
  apply andb_prop in Hd. destruct Hd as [_ Hd]. discriminate.
Qed.

(** The bytes [Clean] receives in [fullPath]: the module path and a slash,
    unless the module path is empty, then the package path, [@] and the
    version. *)
Lemma bytes_joined (m p v : string) :
  bytes (joined m p v)
  = (if (m =? "")%string then [] else bytes m ++ [slash])
    ++ bytes p ++ at_sign :: bytes v.
Proof.
  unfold joined. destruct (m =? "")%string.
  - now rewrite bytes_app.
  - rewrite !bytes_app. simpl. now rewrite <- app_assoc.
Qed.

Lemma boundary_module (m : string) (q : list ascii) :
  boundary q ->
  boundary ((if (m =? "")%string then [] else bytes m ++ [slash]) ++ q).
Proof.
  intros [->|Hq].
  - rewrite app_nil_r. destruct (m =? "")%string; [now left|].
    apply boundary_snoc_slash.
  - right. rewrite trailing_slash_app. destruct q; [discriminate|exact Hq].
Qed.

(** The target ends in [seg@version] when the package path ends in the
    segment [seg], empty or not, and the version has no slash. *)
Lemma fullPath_last_segment (m v : string) (q seg : list ascii) :
  boundary q -> slash_free seg = true ->
  slash_free (bytes v) = true ->
  exists pre,
    bytes (fullPath m (string_of_list_ascii (q ++ seg)) v)
      = pre ++ seg ++ at_sign :: bytes v
    /\ boundary pre.
Proof.
  intros Hb Hs Hv.
  rewrite fullPath_joined, bytes_Clean, bytes_joined.
  unfold bytes at 2. rewrite list_ascii_of_string_of_list_ascii.
  rewrite <- app_assoc, app_assoc.
  apply Clean_bytes_last.
  - now apply boundary_module.
  - now apply real_elem_at.
Qed.

End LastSegment.

(** *** Clean module and package paths *)

Section CleanPaths.

Import path.

Lemma real_elem_at_last (e v : list ascii) :
  real_elem e = true -> slash_free v = true ->
  real_elem (e ++ at_sign :: v) = true.
Proof.
  intros He Hv. apply real_elem_at; [|exact Hv].
  unfold real_elem, elem_ok in He.
  apply andb_prop in He. destruct He as [He _].
  apply andb_prop in He. tauto.
Qed.

(** For a module path and a package path made of real elements separated
    by single slashes, and a version without a slash, what [fullPath] hands
    to [Clean] is already clean. *)
Lemma joined_clean (m p v : string) (ms ps : list (list ascii)) :
  bytes m = join_elems ms -> bytes p = join_elems ps ->
  ms <> [] -> ps <> [] ->
  Forall (fun e => real_elem e = true) ms ->
  Forall (fun e => real_elem e = true) ps ->
  slash_free (bytes v) = true ->
  joined m p v = (m ++ "/" ++ p ++ "@" ++ v)%string
  /\ Clean_bytes (bytes (joined m p v)) = bytes (joined m p v).
Proof.
  intros Hm Hp Hms Hps Hrm Hrp Hv.
  assert (Hne : (m =? "")%string = false).
  { apply String.eqb_neq. intros ->. symmetry in Hm. simpl in Hm.
    apply join_elems_nil in Hm; [contradiction|now apply real_all_elems]. }
  split; [unfold joined; now rewrite Hne|].
  rewrite bytes_joined, Hne, Hm, Hp.
  destruct (exists_last Hps) as (ps' & l & ->).
  apply Forall_app in Hrp. destruct Hrp as [Hrp' Hl].
  inversion Hl as [|? ? Hl' _]; subst.
  rewrite <- join_elems_last_app, <- app_assoc.
  change ([slash] ++ join_elems (ps' ++ [l ++ at_sign :: bytes v]))
    with (slash :: join_elems (ps' ++ [l ++ at_sign :: bytes v])).
  rewrite <- join_elems_app by (auto; destruct ps'; discriminate).
  apply Clean_bytes_reals; [destruct ms; [contradiction|discriminate]|].
  apply Forall_app. split; [exact Hrm|].
  apply Forall_app. split; [exact Hrp'|].
  constructor; [|constructor]. now apply real_elem_at_last.
Qed.

End CleanPaths.

(** *** [fullPath] *)

Example fullPath_test :
  fullPath "github.com/melt-inc/autoupgrade" "foo/bar" "latest"
  = "github.com/melt-inc/autoupgrade/foo/bar@latest".
Proof. reflexivity. Qed.

(** The table of [TestClean] in Go's [path_test.go], as a check of the
    transcription of [Clean]. *)
Example Clean_table :
  map path.Clean
    [""; "abc"; "abc/def"; "a/b/c"; "."; ".."; "../.."; "../../abc"; "/abc";
     "/"; "abc/"; "abc/def/"; "a/b/c/"; "./"; "../"; "../../"; "/abc/";
     "abc//def//ghi"; "//abc"; "///abc"; "//abc//"; "abc//"; "abc/./def";
     "/./abc/def"; "abc/."; "abc/def/ghi/../jkl"; "abc/def/../ghi/../jkl";
     "abc/def/.."; "abc/def/../.."; "/abc/def/../.."; "abc/def/../../..";
     "/abc/def/../../.."; "abc/def/../../../ghi/jkl/../../../mno";
     "abc/./../def"; "abc//./../def"; "abc/../../././../def"]
  = ["."; "abc"; "abc/def"; "a/b/c"; "."; ".."; "../.."; "../../abc"; "/abc";
     "/"; "abc"; "abc/def"; "a/b/c"; "."; ".."; "../.."; "/abc";
     "abc/def/ghi"; "/abc"; "/abc"; "/abc"; "abc"; "abc/def";
     "/abc/def"; "abc"; "abc/def/jkl"; "abc/jkl";
     "abc"; "."; "/"; "..";
     "/"; "../../mno";
     "def"; "def"; "../../def"].
Proof. reflexivity. Qed.

(** For a module path and a package path made of real elements
    separated by single slashes and a version without a slash, the target
    is the module path, a slash, the package path, [@] and the version. *)
Lemma fullPath_clean_paths (m p v : string) (ms ps : list (list ascii)) :
  bytes m = path.join_elems ms -> bytes p = path.join_elems ps ->
  ms <> [] -> ps <> [] ->
  Forall (fun e => path.real_elem e = true) ms ->
  Forall (fun e => path.real_elem e = true) ps ->
  path.slash_free (bytes v) = true ->
  fullPath m p v = (m ++ "/" ++ p ++ "@" ++ v)%string.
Proof.
  intros Hm Hp Hms Hps Hrm Hrp Hv.
  destruct (joined_clean m p v ms ps Hm Hp Hms Hps Hrm Hrp Hv) as (Hj & Hc).
  rewrite fullPath_joined. apply bytes_inj.
  now rewrite bytes_Clean, Hc, Hj.
Qed.

(** C7, as the code has it: [fullPath("a/b", "c/d", "latest")] is
    ["a/b/c/d@latest"], but not every non-empty package path has [@] and
    the version appended to its final segment.  For every module path,
    every package path that ends in a slash and every version without a
    slash, [@version] is an element of its own in the target: what
    precedes the [@] ends in a slash, or is empty. *)
Theorem fullPath_subpath_trailing_slash (m p v : string) :
  path.trailing_slash (bytes p) = true ->
  path.slash_free (bytes v) = true ->
  exists pre,
    fullPath m p v = (pre ++ "@" ++ v)%string
    /\ path.boundary (bytes pre).
Proof.
  intros Ht Hv.
  destruct (fullPath_last_segment m v (bytes p) [] (or_intror Ht) eq_refl Hv)
    as (pre & Hpre & Hb).
  rewrite app_nil_r in Hpre. unfold bytes at 2 in Hpre.
  rewrite string_of_list_ascii_of_string in Hpre.
  exists (string_of_list_ascii pre).
  assert (Hb' : bytes (string_of_list_ascii pre) = pre)
    by apply list_ascii_of_string_of_list_ascii.
  split; [|now rewrite Hb'].
  apply bytes_inj. now rewrite Hpre, !bytes_app, Hb'.
Qed.

(** The example of the specification, and the package path ["c/d/"]. *)
Lemma fullPath_subpath_trailing_slash_witness :
  fullPath "a/b" "c/d" "latest" = "a/b/c/d@latest"
  /\ fullPath "a/b" "c/d/" "latest" = "a/b/c/d/@latest"
  /\ exists pre,
       fullPath "a/b" "c/d/" "latest" = (pre ++ "@" ++ "latest")%string
       /\ path.boundary (bytes pre).
Proof.
  split; [reflexivity|]. split; [reflexivity|].
  apply (fullPath_subpath_trailing_slash "a/b" "c/d/" "latest");
    reflexivity.
Defined.

(** C6, as the code has it: with an empty package path the target is not
    the module path followed by [@] and the version.  [@version] is handed
    to [path.Join] as an element of its own, so for every module path that is
    not empty and does not end in a slash, and every version without a
    slash, the target ends in [@version] after a slash, or is [@version]
    alone. *)
Theorem fullPath_root_package (m v : string) :
  m <> "" -> path.trailing_slash (bytes m) = false ->
  path.slash_free (bytes v) = true ->
  fullPath m "" v <> (m ++ "@" ++ v)%string
  /\ exists pre,
       fullPath m "" v = (pre ++ "@" ++ v)%string
       /\ path.boundary (bytes pre).
Proof.
  intros Hm Ht Hv.
  destruct (fullPath_last_segment m v [] [] (or_introl eq_refl) eq_refl Hv)
    as (pre & Hpre & Hb).
  change (string_of_list_ascii ([] ++ [])) with "" in Hpre.
  assert (Heq : fullPath m "" v = (string_of_list_ascii pre ++ "@" ++ v)%string).
  { apply bytes_inj. rewrite Hpre, !bytes_app. unfold bytes at 2.
    now rewrite list_ascii_of_string_of_list_ascii. }
  split.
  - intros Hbad. rewrite Hbad in Heq.
    apply (f_equal bytes) in Heq. rewrite !bytes_app in Heq.
    apply app_inv_tail in Heq. unfold bytes at 2 in Heq.
    rewrite list_ascii_of_string_of_list_ascii in Heq. subst pre.
    destruct Hb as [Hb|Hb]; [|congruence].
    apply Hm. apply bytes_inj. now rewrite Hb.
  - exists (string_of_list_ascii pre). split; [exact Heq|].
    unfold bytes. now rewrite list_ascii_of_string_of_list_ascii.
Qed.

(** The root package of ["a/b"] at ["v1.2.3"]. *)
Lemma fullPath_root_package_witness :
  fullPath "a/b" "" "v1.2.3" = "a/b/@v1.2.3"
  /\ fullPath "a/b" "" "v1.2.3" <> "a/b@v1.2.3".
Proof.
  split; [reflexivity|].
  apply (fullPath_root_package "a/b" "v1.2.3");
    [discriminate|reflexivity|reflexivity].
Defined.

(** C8, as the code has it: [fullPath] does not join and then append.
    For every package path that is empty or ends in a slash and every
    version without a slash, the target differs from the join of the module
    path and the package path followed by [@] and the version, unless that
    join is the root: the code has a slash before the [@] where the
    specification has the final segment. *)
Theorem fullPath_not_join_then_append (m p v : string) :
  path.boundary (bytes p) ->
  path.slash_free (bytes v) = true ->
  path.Join [m; p] <> "" -> path.Join [m; p] <> "/" ->
  fullPath m p v <> build_spec m p v.
Proof.
  intros Hp Hv Hne Hroot Heq.
  destruct (fullPath_last_segment m v (bytes p) [] Hp eq_refl Hv)
    as (pre & Hpre & Hb).
  rewrite app_nil_r in Hpre. unfold bytes at 2 in Hpre.
  rewrite string_of_list_ascii_of_string in Hpre.
  rewrite Heq in Hpre. unfold build_spec in Hpre.
  rewrite !bytes_app in Hpre. simpl in Hpre.
  apply app_inv_tail in Hpre.
  assert (HJ : bytes (path.Join [m; p]) <> []
               /\ (path.trailing_slash (bytes (path.Join [m; p])) = true ->
                   bytes (path.Join [m; p]) = [path.slash])).
  { split.
    - intros H. apply Hne. apply bytes_inj. now rewrite H.
    - revert Hne. unfold path.Join.
      destruct (fold_left _ _ _ =? 0); [contradiction|]. intros _.
      rewrite bytes_Clean. apply Clean_bytes_slashes. }
  destruct HJ as (HJ1 & HJ2). rewrite Hpre in HJ1, HJ2.
  destruct Hb as [Hb|Hb]; [contradiction|].
  apply Hroot. apply bytes_inj. rewrite Hpre. now apply HJ2.
Qed.

(** The package path ["c/d/"] under the module path ["a/b"]. *)
Lemma fullPath_not_join_then_append_witness :
  build_spec "a/b" "c/d/" "latest" = "a/b/c/d@latest"
  /\ fullPath "a/b" "c/d/" "latest" = "a/b/c/d/@latest"
  /\ fullPath "a/b" "c/d/" "latest" <> build_spec "a/b" "c/d/" "latest".
Proof.
  split; [reflexivity|]. split; [reflexivity|].
  apply (fullPath_not_join_then_append "a/b" "c/d/" "latest");
    [right; reflexivity|reflexivity|discriminate|discriminate].
Defined.

(** *** More on the target of [go install] *)

Section TargetFacts.

Import path.

(** Every path ends in a segment without a slash, empty when the path is
    empty or ends in a slash. *)
Lemma final_segment (p : list ascii) :
  exists q seg, p = q ++ seg /\ slash_free seg = true /\ boundary q.
Proof.
  induction p as [|c p IH] using rev_ind.
  - exists [], []. repeat split. now left.
  - destruct (is_slash c) eqn:Hc.
    + exists (p ++ [c]), []. rewrite app_nil_r. repeat split.
      right. rewrite trailing_slash_app. exact Hc.
    + destruct IH as (q & seg & -> & Hs & Hb).
      exists q, (seg ++ [c]). rewrite <- app_assoc. repeat split; [|exact Hb].
      rewrite slash_free_app, Hs. simpl. now rewrite Hc.
Qed.

(** Whatever the module path and the package path, a version without a
    slash stays at the end of the target, after [@]. *)
Lemma fullPath_ends_at_version (m p v : string) :
  slash_free (bytes v) = true ->
  exists pre, fullPath m p v = (pre ++ "@" ++ v)%string.
Proof.
  intros Hv.
  destruct (final_segment (bytes p)) as (q & seg & Hp & Hs & Hb).
  destruct (fullPath_last_segment m v q seg Hb Hs Hv) as (pre & Hpre & _).
  rewrite <- Hp in Hpre. unfold bytes at 2 in Hpre.
  rewrite string_of_list_ascii_of_string in Hpre.
  exists (string_of_list_ascii (pre ++ seg)).
  apply bytes_inj. rewrite Hpre, !bytes_app. unfold bytes at 2.
  rewrite list_ascii_of_string_of_list_ascii.
  now rewrite <- app_assoc.
Qed.

(** *** Slashes and dots that [Clean] drops *)

Lemma stack_loop_fuel (rooted : bool) :
  forall n rest k reals m,
  length rest <= n -> n <= m ->
  stack_loop m rooted rest k reals = stack_loop n rooted rest k reals.
Proof.
  induction n as [|n IH]; intros rest k reals m Hr Hm.
  - destruct rest; [|simpl in Hr; lia]. now destruct m.
  - destruct m as [|m]; [lia|]. cbn [stack_loop].
    destruct rest as [|c rest1]; [reflexivity|]. simpl in Hr.
    destruct (is_slash c) eqn:Hc; [apply IH; lia|].
    destruct (is_dot c && at_end_or_slash rest1); [apply IH; lia|].
    destruct (is_dot c && _).
    + assert (length (tl rest1) <= n) by (destruct rest1; simpl in *; lia).
      destruct reals; [destruct (negb rooted)|]; apply IH; lia.
    + destruct (copy_elem (c :: rest1)) as [e rest'] eqn:He.
      apply copy_elem_ok in He; [|exact Hc]. destruct He as [_ He].
      apply IH; lia.
Qed.

Lemma is_slash_not_dot (c : ascii) : is_slash c = true -> is_dot c = false.
Proof.
  unfold is_slash, is_dot. intros H. apply Ascii.eqb_eq in H. now subst c.
Qed.

(** What the loop looks at beyond a prefix is only whether a slash
    follows. *)
Lemma at_end_or_slash_app (a X : list ascii) :
  leading_slash X = true -> at_end_or_slash (a ++ X) = at_end_or_slash a.
Proof. intros HX. destruct a; [|reflexivity]. now destruct X. Qed.

Lemma dotdot_test_app (a X : list ascii) :
  leading_slash X = true ->
  match a ++ X with
  | c1 :: rest2 => is_dot c1 && at_end_or_slash rest2
  | [] => false
  end
  = match a with
    | c1 :: a2 => is_dot c1 && at_end_or_slash a2
    | [] => false
    end.
Proof.
  intros HX. destruct a as [|c1 a2].
  - destruct X as [|x X]; [discriminate|]. simpl in *.
    now rewrite (is_slash_not_dot x HX).
  - simpl. now rewrite at_end_or_slash_app.
Qed.

Lemma copy_elem_prefix (a X : list ascii) :
  leading_slash X = true ->
  copy_elem (a ++ X) = (fst (copy_elem a), snd (copy_elem a) ++ X).
Proof.
  intros HX. induction a as [|c a IH]; simpl.
  - destruct X as [|x X]; [discriminate|]. simpl in *. now rewrite HX.
  - destruct (is_slash c); [reflexivity|].
    rewrite IH. now destruct (copy_elem a).
Qed.

(** Reading a prefix that a slash follows leaves the loop in a state that
    does not depend on what comes after that slash. *)
Lemma stack_loop_prefix (rooted : bool) :
  forall n a, length a <= n ->
  forall X X' k reals,
  leading_slash X = true -> leading_slash X' = true ->
  exists k' reals',
    stack_loop (length (a ++ X)) rooted (a ++ X) k reals
      = stack_loop (length X) rooted X k' reals'
    /\ stack_loop (length (a ++ X')) rooted (a ++ X') k reals
      = stack_loop (length X') rooted X' k' reals'.
Proof.
  induction n as [|n IH]; intros a Ha X X' k reals HX HX'.
  - destruct a; [|simpl in Ha; lia]. now exists k, reals.
  - destruct a as [|c a1]; [now exists k, reals|]. simpl in Ha.
    change (length ((c :: a1) ++ X)) with (S (length (a1 ++ X))).
    change (length ((c :: a1) ++ X')) with (S (length (a1 ++ X'))).
    change ((c :: a1) ++ X) with (c :: (a1 ++ X)).
    change ((c :: a1) ++ X') with (c :: (a1 ++ X')).
    cbn [stack_loop].
    destruct (is_slash c) eqn:Hc; [apply IH; auto; lia|].
    rewrite !at_end_or_slash_app by assumption.
    destruct (is_dot c && at_end_or_slash a1); [apply IH; auto; lia|].
    rewrite !dotdot_test_app by assumption.
    destruct (is_dot c && _) eqn:Hdd.
    + destruct a1 as [|c1 a2]; [now rewrite andb_false_r in Hdd|].
      cbn [app tl]. simpl in Ha.
      destruct reals; [destruct (negb rooted)|];
        rewrite (stack_loop_fuel rooted (length (a2 ++ X)) (a2 ++ X))
          by (simpl; lia);
        rewrite (stack_loop_fuel rooted (length (a2 ++ X')) (a2 ++ X'))
          by (simpl; lia);
        apply IH; auto; lia.
    + change (c :: (a1 ++ X)) with ((c :: a1) ++ X).
      change (c :: (a1 ++ X')) with ((c :: a1) ++ X').
      rewrite !copy_elem_prefix by assumption.
      destruct (copy_elem (c :: a1)) as [e a'] eqn:He. cbn [fst snd].
      apply copy_elem_ok in He; [|exact Hc]. destruct He as [_ He].
      rewrite (stack_loop_fuel rooted (length (a' ++ X)) (a' ++ X))
        by (rewrite ?length_app; lia).
      rewrite (stack_loop_fuel rooted (length (a' ++ X')) (a' ++ X'))
        by (rewrite ?length_app; lia).
      apply IH; auto; lia.
Qed.

(** Two inputs with a common non-empty prefix, each continued by a slash
    and by parts that the loop treats alike, are cleaned alike. *)
Lemma Clean_bytes_after_prefix (a X X' : list ascii) :
  a <> [] -> leading_slash X = true -> leading_slash X' = true ->
  (forall rooted k reals,
     stack_loop (length X) rooted X k reals
     = stack_loop (length X') rooted X' k reals) ->
  Clean_bytes (a ++ X) = Clean_bytes (a ++ X').
Proof.
  intros Ha HX HX' Hsame.
  destruct a as [|c a1]; [contradiction|].
  destruct (Clean_bytes_render ((c :: a1) ++ X))
    as (k1 & r1 & _ & _ & Hs1 & ->); [discriminate|].
  destruct (Clean_bytes_render ((c :: a1) ++ X'))
    as (k2 & r2 & _ & _ & Hs2 & ->); [discriminate|].
  cbn [app leading_slash tl] in *.
  set (rooted := is_slash c) in *.
  set (a0 := if rooted then a1 else c :: a1).
  assert (H1 : (if rooted then a1 ++ X else c :: a1 ++ X) = a0 ++ X)
    by (subst a0; now destruct rooted).
  assert (H2 : (if rooted then a1 ++ X' else c :: a1 ++ X') = a0 ++ X')
    by (subst a0; now destruct rooted).
  rewrite H1 in Hs1. rewrite H2 in Hs2.
  destruct (stack_loop_prefix rooted (length a0) a0 (le_n _) X X' 0 []
              HX HX') as (k' & r' & E1 & E2).
  rewrite E1 in Hs1. rewrite E2 in Hs2. rewrite Hsame in Hs1.
  rewrite Hs1 in Hs2. now injection Hs2 as <- <-.
Qed.

(** A doubled slash counts as one, and a [.] element is dropped. *)
Lemma Clean_bytes_double_slash (a b : list ascii) :
  a <> [] ->
  Clean_bytes (a ++ slash :: slash :: b) = Clean_bytes (a ++ slash :: b).
Proof.
  intros Ha.
  apply Clean_bytes_after_prefix; [exact Ha|reflexivity|reflexivity|].
  intros rooted k reals. reflexivity.
Qed.

Lemma Clean_bytes_dot_elem (a b : list ascii) :
  a <> [] ->
  Clean_bytes (a ++ slash :: dot :: slash :: b) = Clean_bytes (a ++ slash :: b).
Proof.
  intros Ha.
  apply Clean_bytes_after_prefix; [exact Ha|reflexivity|reflexivity|].
  intros rooted k reals. reflexivity.
Qed.

(** Behind a module path that is not empty, a package path may start
    with a slash or with [./]: the target is the same. *)
Lemma fullPath_leading_slash (m p v : string) :
  m <> "" ->
  fullPath m ("/" ++ p) v = fullPath m p v
  /\ fullPath m ("./" ++ p) v = fullPath m p v.
Proof.
  intros Hm.
  assert (Hne : (m =? "")%string = false) by now apply String.eqb_neq.
  assert (Hb : bytes m <> []).
  { intros H. apply Hm. apply bytes_inj. now rewrite H. }
  split; rewrite !fullPath_joined; apply bytes_inj;
    rewrite !bytes_Clean, !bytes_joined, Hne, !bytes_app, <- !app_assoc.
  - apply (Clean_bytes_double_slash (bytes m)). exact Hb.
  - apply (Clean_bytes_dot_elem (bytes m)). exact Hb.
Qed.

End TargetFacts.

(** ** Further properties *)

(** X1: the install attempt is made before the [select] chooses: whichever
    case is taken, the commands run by [UpgradeBackground] are those of
    [Upgrade], also when the cancellation result is the one delivered. *)
Theorem UpgradeBackground_attempts (E : Env) (ctx : Context)
    (packagePath : string) (pick : select_case) (h : Hist) :
  snd (UpgradeBackground E ctx packagePath pick h)
  = snd (Upgrade E ctx packagePath h).
Proof.
  unfold UpgradeBackground, background.
  destruct (Upgrade E ctx packagePath h) as [r h1]. reflexivity.
Qed.

(** X2: [DidUpgrade] asked again answers the same and changes nothing,
    whatever the environment has become. *)
Theorem DidUpgrade_again (E E' : Env) (u : UpgradeResult) (h : Hist) :
  DidUpgrade E' (snd (fst (DidUpgrade E u h))) (snd (DidUpgrade E u h))
  = DidUpgrade E u h.
Proof.
  destruct (CurrentInfo u) as [cur|] eqn:Hc.
  - destruct (String.eqb_spec (Version (Main cur)) devel) as [Hv|Hv].
    + rewrite (DidUpgrade_devel E u h cur Hc Hv). simpl.
      now apply DidUpgrade_devel with cur.
    + rewrite (DidUpgrade_released E u h cur Hc Hv).
      pose proof (NewBuildInfo_caches E u h) as Hn.
      destruct (NewBuildInfo E u h) as [[r u1] h1].
      destruct Hn as (Ho & -> & Hc1 & _). simpl.
      rewrite Hc in Hc1.
      rewrite (DidUpgrade_released E' u1 h1 cur Hc1 Hv).
      now rewrite (NewBuildInfo_resolved E' u1 h1 Ho).
  - rewrite (DidUpgrade_no_info E u h Hc). simpl.
    now apply DidUpgrade_no_info.
Qed.

(** X3: the result of [Upgrade] carries the build information exactly as
    [debug.ReadBuildInfo] gave it (nil exactly when it could not be read),
    its lazy fields are unresolved, and [Upgrade] has called neither
    [os.Executable] nor [buildinfo.ReadFile]. *)
Theorem Upgrade_result_unresolved (E : Env) (ctx : Context)
    (packagePath : string) (h : Hist) :
  let u := fst (Upgrade E ctx packagePath h) in
  let h1 := snd (Upgrade E ctx packagePath h) in
  u = mkUpgradeResult (ReadBuildInfo E) (ExitError u)
  /\ (CurrentInfo u = None <-> ReadBuildInfo E = None)
  /\ cache_ok u = true
  /\ executables h1 = executables h /\ reads h1 = reads h.
Proof.
  intros u h1. subst u h1.
  destruct (Upgrade_cases E)
    as [Hn | [(info & Hi & [Hv|Hp]) | (info & Hi & Hv & Hp)]].
  - rewrite Upgrade_unreadable by assumption. rewrite Hn. simpl. tauto.
  - rewrite (Upgrade_devel E ctx packagePath h info) by assumption.
    rewrite Hi. simpl. tauto.
  - rewrite (Upgrade_no_module E ctx packagePath h info) by assumption.
    rewrite Hi. simpl. tauto.
  - rewrite (Upgrade_installs E ctx packagePath h info) by assumption.
    rewrite Hi. simpl. tauto.
Qed.

(** X4: on the result of [Upgrade], [DidUpgrade] answers false without
    calling anything exactly when the build information was unreadable or is
    a development build.  For a released build it resolves the new build
    information, by one call of [os.Executable], also when the install was
    skipped because the module path is empty. *)
Theorem DidUpgrade_after_Upgrade (E E' : Env) (ctx : Context)
    (packagePath : string) (h : Hist) :
  let u := fst (Upgrade E ctx packagePath h) in
  let h1 := snd (Upgrade E ctx packagePath h) in
  let unreleased :=
    ReadBuildInfo E = None
    \/ exists info, ReadBuildInfo E = Some info /\ Version (Main info) = "(devel)" in
  (unreleased <-> DidUpgrade E' u h1 = (false, u, h1))
  /\ (~ unreleased ->
      executables (snd (DidUpgrade E' u h1)) = S (executables h1)).
Proof.
  intros u h1 unreleased.
  destruct (Upgrade_result_fresh E ctx packagePath h) as (Hu & Ho).
  fold u in Hu, Ho. fold h1.
  assert (Hresolve : forall cur, CurrentInfo u = Some cur ->
            Version (Main cur) <> devel ->
            executables (snd (DidUpgrade E' u h1)) = S (executables h1)).
  { intros cur Hc Hv. rewrite (DidUpgrade_released E' u h1 cur Hc Hv).
    rewrite (NewBuildInfo_unresolved E' u h1 Ho). unfold resolve.
    destruct (Executable E' (executables h1)) as [p [e|]]; [reflexivity|].
    destruct (ReadFile E' _ p) as [i e']. reflexivity. }
  destruct (ReadBuildInfo E) as [info|] eqn:Hi.
  - destruct (String.eqb_spec (Version (Main info)) devel) as [Hv|Hv].
    + assert (Hun : unreleased) by (right; now exists info).
      split; [|tauto]. split; [intros _|auto].
      now apply DidUpgrade_devel with info.
    + assert (Hun : ~ unreleased).
      { intros [Hn | (i & Hi' & Hv')]; [discriminate|].
        injection Hi' as <-. exact (Hv Hv'). }
      split; [|intros _; now apply Hresolve with info].
      split; [tauto|]. intros Hd.
      specialize (Hresolve info Hu Hv). rewrite Hd in Hresolve.
      simpl in Hresolve. lia.
  - assert (Hun : unreleased) by now left.
    split; [|tauto]. split; [intros _|auto].
    now apply DidUpgrade_no_info.
Qed.

(** X5: [DidUpgrade] writes only the lazy fields: it leaves [CurrentInfo]
    and [ExitError] as they are, runs no command, and calls [os.Executable]
    and [buildinfo.ReadFile] at most once each. *)
Theorem DidUpgrade_frame (E : Env) (u : UpgradeResult) (h : Hist) :
  let u1 := snd (fst (DidUpgrade E u h)) in
  let h1 := snd (DidUpgrade E u h) in
  CurrentInfo u1 = CurrentInfo u /\ ExitError u1 = ExitError u
  /\ runs h1 = runs h
  /\ executables h1 <= S (executables h)
  /\ length (reads h1) <= S (length (reads h)).
Proof.
  intros u1 h1. subst u1 h1.
  assert (Hsame : DidUpgrade E u h = (false, u, h) ->
    CurrentInfo (snd (fst (DidUpgrade E u h))) = CurrentInfo u
    /\ ExitError (snd (fst (DidUpgrade E u h))) = ExitError u
    /\ runs (snd (DidUpgrade E u h)) = runs h
    /\ executables (snd (DidUpgrade E u h)) <= S (executables h)
    /\ length (reads (snd (DidUpgrade E u h))) <= S (length (reads h))).
  { intros ->. simpl. repeat split; lia. }
  destruct (CurrentInfo u) as [cur|] eqn:Hc.
  - destruct (String.eqb_spec (Version (Main cur)) devel) as [Hv|Hv].
    + apply Hsame. now apply DidUpgrade_devel with cur.
    + rewrite (DidUpgrade_released E u h cur Hc Hv).
      pose proof (NewBuildInfo_caches E u h) as Hn.
      pose proof (NewBuildInfo_calls E u h) as Hcalls.
      destruct (NewBuildInfo E u h) as [[r u1] h1]. simpl in *.
      destruct Hn as (_ & _ & Hc1 & He1). rewrite Hc1, He1, Hc. tauto.
  - apply Hsame. now apply DidUpgrade_no_info.
Qed.

(** X6: [DidUpgrade] looks at the versions only.  On a released build it
    is true as soon as the executable reads with another version, whatever
    [ExitError] holds (a failed or cancelled install included) and whatever
    error [buildinfo.ReadFile] returned beside the build information. *)
Theorem DidUpgrade_true_despite_errors (E : Env) (cur n : BuildInfo)
    (err rerr : option error) (h : Hist) (p : string) :
  Version (Main cur) <> "(devel)" ->
  Executable E (executables h) = (p, None) ->
  ReadFile E (length (reads h)) p = (Some n, rerr) ->
  Version (Main n) <> Version (Main cur) ->
  fst (fst (DidUpgrade E (mkUpgradeResult (Some cur) err) h)) = true.
Proof.
  intros Hv He Hr Hn.
  rewrite (DidUpgrade_released E (mkUpgradeResult (Some cur) err) h cur
             eq_refl Hv).
  rewrite NewBuildInfo_unresolved by reflexivity.
  unfold resolve. rewrite He. simpl. rewrite Hr. simpl.
  apply String.eqb_neq in Hn. now rewrite Hn.
Qed.

(** The install failed with [exit status 1] and the executable reads as
    [v1.1.0]. *)
Lemma DidUpgrade_true_despite_errors_witness :
  ExitError (fst (Upgrade (sample_env true) running "cmd/tool" no_calls))
    = Some "exit status 1"
  /\ fst (fst (DidUpgrade (sample_env true)
                 (mkUpgradeResult (Some (sample_info "v1.0.0"))
                    (Some "exit status 1")) no_calls)) = true.
Proof.
  split; [reflexivity|].
  apply (DidUpgrade_true_despite_errors (sample_env true)
           (sample_info "v1.0.0") (sample_info "v1.1.0")
           (Some "exit status 1") None no_calls "/go/bin/tool");
    [discriminate|reflexivity|reflexivity|discriminate].
Defined.

(** X7: when [os.Executable] returns a path at the first call of
    [NewBuildInfo], the file at that path, and no other, is read once; the
    call returns what [buildinfo.ReadFile] returned, build information and
    error as they are, and every later call returns that pair again and
    calls nothing. *)
Theorem NewBuildInfo_reads_executable (E : Env) (info : option BuildInfo)
    (err : option error) (h : Hist) (p : string) :
  Executable E (executables h) = (p, None) ->
  exists u1,
    NewBuildInfo E (mkUpgradeResult info err) h
      = (ReadFile E (length (reads h)) p, u1,
         {| runs := runs h; executables := S (executables h);
            reads := reads h ++ [p] |})
    /\ forall E' k h',
         NewBuildInfo_times E' k u1 h'
         = (repeat (ReadFile E (length (reads h)) p) k, u1, h').
Proof.
  intros He.
  destruct (ReadFile E (length (reads h)) p) as [i e] eqn:Hr.
  exists (store_done (store_newInfo (mkUpgradeResult info err) i e)).
  split.
  - rewrite NewBuildInfo_unresolved by reflexivity.
    unfold resolve. rewrite He. simpl. rewrite Hr. reflexivity.
  - intros E' k h'. now rewrite NewBuildInfo_times_resolved.
Qed.

Lemma NewBuildInfo_reads_executable_witness :
  exists u1,
    NewBuildInfo (sample_env true) (mkUpgradeResult None None) no_calls
      = ((Some (sample_info "v1.1.0"), None), u1,
         {| runs := []; executables := 1; reads := ["/go/bin/tool"] |})
    /\ forall E' k h',
         NewBuildInfo_times E' k u1 h'
         = (repeat (Some (sample_info "v1.1.0"), None) k, u1, h').
Proof.
  apply (NewBuildInfo_reads_executable (sample_env true) None None no_calls
           "/go/bin/tool").
  reflexivity.
Defined.

(** X8: a call of [NewBuildInfo] before [DidUpgrade] does not change the
    answer: [DidUpgrade] then answers what it would have answered, from the
    cached pair, and calls nothing. *)
Theorem DidUpgrade_after_NewBuildInfo (E E' : Env) (u : UpgradeResult)
    (h : Hist) :
  let u1 := snd (fst (NewBuildInfo E u h)) in
  let h1 := snd (NewBuildInfo E u h) in
  DidUpgrade E' u1 h1 = (fst (fst (DidUpgrade E u h)), u1, h1).
Proof.
  intros u1 h1. subst u1 h1.
  pose proof (NewBuildInfo_caches E u h) as Hn.
  destruct (CurrentInfo u) as [cur|] eqn:Hc.
  - destruct (String.eqb_spec (Version (Main cur)) devel) as [Hv|Hv].
    + rewrite (DidUpgrade_devel E u h cur Hc Hv).
      destruct (NewBuildInfo E u h) as [[r u1] h1]. simpl.
      destruct Hn as (_ & _ & Hc1 & _). rewrite ?Hc in Hc1.
      now apply DidUpgrade_devel with cur.
    + rewrite (DidUpgrade_released E u h cur Hc Hv).
      destruct (NewBuildInfo E u h) as [[r u1] h1]. simpl.
      destruct Hn as (Ho & -> & Hc1 & _). rewrite ?Hc in Hc1.
      rewrite (DidUpgrade_released E' u1 h1 cur Hc1 Hv).
      now rewrite (NewBuildInfo_resolved E' u1 h1 Ho).
  - rewrite (DidUpgrade_no_info E u h Hc).
    destruct (NewBuildInfo E u h) as [[r u1] h1]. simpl.
    destruct Hn as (_ & _ & Hc1 & _). rewrite ?Hc in Hc1.
    now apply DidUpgrade_no_info.
Qed.

(** X9: every command [Upgrade] runs is [go install] of one target that
    ends in [@latest], whatever the module path of the build and the package
    path given: [Upgrade] either leaves the history of calls as it is or
    adds that one command. *)
Theorem Upgrade_installs_latest (E : Env) (ctx : Context)
    (packagePath : string) (h : Hist) :
  snd (Upgrade E ctx packagePath h) = h
  \/ exists pre,
       snd (Upgrade E ctx packagePath h)
       = record_run ["go"; "install"; (pre ++ "@latest")%string] h.
Proof.
  destruct (Upgrade_cases E)
    as [Hn | [(info & Hi & [Hv|Hp]) | (info & Hi & Hv & Hp)]].
  - left. now rewrite Upgrade_unreadable.
  - left. now rewrite (Upgrade_devel E ctx packagePath h info).
  - left. now rewrite (Upgrade_no_module E ctx packagePath h info).
  - right.
    destruct (fullPath_ends_at_version (Path (Main info)) packagePath "latest"
                eq_refl) as (pre & Hpre).
    exists pre.
    rewrite (Upgrade_installs E ctx packagePath h info Hi Hv Hp).
    unfold install_cmd. now rewrite Hpre.
Qed.

(** X10: for a released build whose module path is made of real elements
    separated by single slashes, and a package path of the same form,
    [Upgrade] runs exactly [go install modulePath/packagePath@latest] and
    stores what [Run] returned for it. *)
Theorem Upgrade_runs_go_install (E : Env) (ctx : Context)
    (packagePath : string) (h : Hist) (info : BuildInfo)
    (ms ps : list (list ascii)) :
  ReadBuildInfo E = Some info ->
  Version (Main info) <> "(devel)" ->
  bytes (Path (Main info)) = path.join_elems ms ->
  bytes packagePath = path.join_elems ps ->
  ms <> [] -> ps <> [] ->
  Forall (fun e => path.real_elem e = true) ms ->
  Forall (fun e => path.real_elem e = true) ps ->
  let cmd := ["go"; "install";
              (Path (Main info) ++ "/" ++ packagePath ++ "@latest")%string] in
  Upgrade E ctx packagePath h
  = (mkUpgradeResult (Some info) (Run E ctx (length (runs h)) cmd),
     record_run cmd h).
Proof.
  intros Hi Hv Hm Hp Hms Hps Hrm Hrp cmd.
  destruct (joined_clean (Path (Main info)) packagePath "latest" ms ps
              Hm Hp Hms Hps Hrm Hrp eq_refl) as (Hj & Hc).
  assert (Hne : Path (Main info) <> "").
  { intros H. rewrite H in Hm. symmetry in Hm. simpl in Hm.
    apply join_elems_nil in Hm; [contradiction|now apply real_all_elems]. }
  assert (Hf : fullPath (Path (Main info)) packagePath "latest"
               = (Path (Main info) ++ "/" ++ packagePath ++ "@latest")%string).
  { rewrite fullPath_joined. apply bytes_inj.
    now rewrite bytes_Clean, Hc, Hj. }
  rewrite (Upgrade_installs E ctx packagePath h info Hi Hv Hne).
  unfold install_cmd. rewrite Hf. reflexivity.
Qed.

(** The released build [example.com/tool] and the package [cmd/tool]. *)
Lemma Upgrade_runs_go_install_witness :
  Upgrade (sample_env true) running "cmd/tool" no_calls
  = (mkUpgradeResult (Some (sample_info "v1.0.0")) (Some "exit status 1"),
     record_run ["go"; "install"; "example.com/tool/cmd/tool@latest"] no_calls).
Proof.
  apply (Upgrade_runs_go_install (sample_env true) running "cmd/tool" no_calls
           (sample_info "v1.0.0")
           [bytes "example.com"; bytes "tool"] [bytes "cmd"; bytes "tool"]);
    try reflexivity; try discriminate; repeat constructor.
Defined.

(** X11: a package path written with a leading slash or a leading [./]
    is the same package to [Upgrade]: the result and the command run are
    those of the package path without it. *)
Theorem Upgrade_leading_slash (E : Env) (ctx : Context)
    (packagePath : string) (h : Hist) :
  Upgrade E ctx ("/" ++ packagePath) h = Upgrade E ctx packagePath h
  /\ Upgrade E ctx ("./" ++ packagePath) h = Upgrade E ctx packagePath h.
Proof.
  destruct (Upgrade_cases E)
    as [Hn | [(info & Hi & [Hv|Hp]) | (info & Hi & Hv & Hp)]].
  - now rewrite !Upgrade_unreadable.
  - now rewrite !(fun p => Upgrade_devel E ctx p h info Hi Hv).
  - now rewrite !(fun p => Upgrade_no_module E ctx p h info Hi Hp).
  - rewrite !(fun p => Upgrade_installs E ctx p h info Hi Hv Hp).
    unfold install_cmd.
    destruct (fullPath_leading_slash (Path (Main info)) packagePath "latest" Hp)
      as (-> & ->).
    split; reflexivity.
Qed.

Example Upgrade_leading_slash_sample :
  fullPath "example.com/tool" "/cmd//tool" "latest"
    = "example.com/tool/cmd/tool@latest"
  /\ fullPath "example.com/tool" "./cmd/./tool" "latest"
    = "example.com/tool/cmd/tool@latest".
Proof. split; reflexivity. Qed.

(** X12: in every run of units that call [NewBuildInfo], the units
    inside [doSlow] are exactly the holder of the mutex of the [sync.Once]:
    two units are never there together, so the lazy fields are never written
    by two units at a time. *)
Theorem doSlow_exclusive (E : Env) (info : option BuildInfo)
    (err : option error) (h : Hist) (sched : list nat) :
  let s := run E sched (cinit (mkUpgradeResult info err) h) in
  (forall t, in_doSlow (pcs s t) = true <-> mu s = Some t)
  /\ (forall t1 t2, in_doSlow (pcs s t1) = true ->
                    in_doSlow (pcs s t2) = true -> t1 = t2).
Proof.
  intros s.
  assert (Hinv : cinv E (mkUpgradeResult info err) h s).
  { apply run_inv; [reflexivity|]. now apply cinit_inv. }
  assert (Hholder : forall t, in_doSlow (pcs s t) = true -> mu s = Some t).
  { intros t Hin. pose proof (inv_pcs _ _ _ _ Hinv t) as Ht.
    destruct (pcs s t); simpl in Ht, Hin; try discriminate; tauto. }
  split.
  - intros t. split; [apply Hholder|apply (inv_mu _ _ _ _ Hinv)].
  - intros t1 t2 H1 H2. apply Hholder in H1, H2. congruence.
Qed.

(** A unit inside [doSlow] can always take its next step. *)
Lemma step_in_doSlow (E : Env) (s : cstate) (t : nat) :
  in_doSlow (pcs s t) = true -> step E t s <> None.
Proof.
  unfold step. destruct (pcs s t); simpl; try discriminate; intros _.
  - destruct (once (obj s)); discriminate.
  - destruct (Executable E (executables (world s))) as [p [e|]]; discriminate.
  - destruct (ReadFile E (length (reads (world s))) execPath); discriminate.
Qed.

(** X13: no run deadlocks.  A unit cannot move only when it waits for the
    mutex at the entry of [doSlow]; the mutex is then held by another unit,
    and that unit can move: the function given to [once.Do] never waits for
    the mutex it holds. *)
Theorem blocked_unit_waits_for_holder (E : Env) (info : option BuildInfo)
    (err : option error) (h : Hist) (sched : list nat) (t : nat) :
  let s := run E sched (cinit (mkUpgradeResult info err) h) in
  step E t s = None ->
  pcs s t = Lock
  /\ exists t', t' <> t /\ mu s = Some t' /\ step E t' s <> None.
Proof.
  intros s Hstep.
  assert (Hinv : cinv E (mkUpgradeResult info err) h s).
  { apply run_inv; [reflexivity|]. now apply cinit_inv. }
  assert (Hlock : pcs s t = Lock /\ exists t', mu s = Some t').
  { unfold step in Hstep. destruct (pcs s t); try discriminate.
    - destruct (mu s) as [t'|]; [|discriminate]. split; [reflexivity|].
      now exists t'.
    - destruct (once (obj s)); discriminate.
    - destruct (Executable E (executables (world s))) as [p [e|]];
        discriminate.
    - destruct (ReadFile E (length (reads (world s))) execPath);
        discriminate. }
  destruct Hlock as (Hpc & t' & Hmu). split; [exact Hpc|].
  pose proof (inv_mu _ _ _ _ Hinv t' Hmu) as Hin.
  exists t'. split; [|split; [exact Hmu|now apply step_in_doSlow]].
  intros Heq. rewrite Heq, Hpc in Hin. discriminate.
Qed.

(** Unit 0 is inside [doSlow] and unit 1 waits for the mutex. *)
Lemma blocked_unit_waits_for_holder_witness :
  let s := run (sample_env true) [0; 0; 1; 1]
             (cinit (mkUpgradeResult None None) no_calls) in
  step (sample_env true) 1 s = None
  /\ pcs s 1 = Lock
  /\ exists t', t' <> 1 /\ mu s = Some t' /\ step (sample_env true) t' s <> None.
Proof.
  split; [reflexivity|].
  apply (blocked_unit_waits_for_holder (sample_env true) None None no_calls
           [0; 0; 1; 1] 1).
  reflexivity.
Defined.

(** Every step keeps [CurrentInfo], [ExitError] and the commands run. *)
Lemma step_frame (E : Env) (s s' : cstate) (t : nat) :
  step E t s = Some s' ->
  CurrentInfo (obj s') = CurrentInfo (obj s)
  /\ ExitError (obj s') = ExitError (obj s)
  /\ runs (world s') = runs (world s).
Proof.
  unfold step. destruct (pcs s t).
  - intros H. injection H as <-. auto.
  - destruct (mu s); [discriminate|]. intros H. injection H as <-. auto.
  - destruct (once (obj s)); intros H; injection H as <-; auto.
  - destruct (Executable E (executables (world s))) as [p [e|]];
      intros H; injection H as <-; auto.
  - destruct (ReadFile E (length (reads (world s))) execPath);
      intros H; injection H as <-; auto.
  - intros H. injection H as <-. auto.
  - intros H. injection H as <-. auto.
  - intros H. injection H as <-. auto.
Qed.

Lemma run_frame_from (E : Env) (sched : list nat) :
  forall s0,
  CurrentInfo (obj (run E sched s0)) = CurrentInfo (obj s0)
  /\ ExitError (obj (run E sched s0)) = ExitError (obj s0)
  /\ runs (world (run E sched s0)) = runs (world s0).
Proof.
  induction sched as [|t sched IH]; intros s0; simpl; [auto|].
  destruct (step E t s0) as [s1|] eqn:Hs; [|apply IH].
  destruct (step_frame E s0 s1 t Hs) as (H1 & H2 & H3).
  rewrite <- H1, <- H2, <- H3. apply IH.
Qed.

(** X14: however many units call [NewBuildInfo] and in whatever order
    they run, [CurrentInfo] and [ExitError] of the shared result stay as
    they were built and no command is run: the calls write the lazy fields
    only. *)
Theorem run_frame (E : Env) (u : UpgradeResult) (h : Hist)
    (sched : list nat) :
  let s := run E sched (cinit u h) in
  CurrentInfo (obj s) = CurrentInfo u
  /\ ExitError (obj s) = ExitError u
  /\ runs (world s) = runs h.
Proof. intros s. subst s. apply (run_frame_from E sched (cinit u h)). Qed.
